(** * Anchor boxes for detection: a shallow embedding of
      [pytorch_segmentation_detection/utils/detection.py]

    Conventions of the embedding.

    - A float tensor of shape (N, 4) is a [list bbox]; a row is the record
      [bbox] with the four columns [c0 .. c3].  A tensor of shape (N, M) is a
      [list (list R)], a long tensor of shape (N,) a [list Z] or [list nat]
      (indices), a byte mask a [list bool].
    - Float arithmetic is read over the reals [R]: rounding, overflow,
      infinities and NaN are outside the model.  The one place where
      rounding decides whether the code raises, the product in the loop of
      [get_anchor_boxes_sizes], carries the binary64 threshold below which
      a number rounds to zero.
    - Python-level exceptions ([math.sqrt] of a negative number, a float
      division by zero, an index out of range, a reduction over an empty
      dimension) are results [None].
    - [tensor.max(dim)] is the scan of the CPU kernel: the running maximum
      is replaced only by a strictly greater entry; it raises on a reduced
      dimension of size zero.  A tensor of shape (N, M) being the list of
      its N rows, the size M travels with the call.
    - The code is given twice: by value (modules [Geometry], [Anchors],
      [Encode], [Padding]) and over an explicit store of tensor objects
      (module [Store]), where allocation, in-place assignment and aliasing
      are visible. *)

From Stdlib Require Import Reals Lra Lia ZArith List Bool.
Import ListNotations.

Open Scope R_scope.

(** ** Rows and columns *)

Record bbox : Type := mkbox { c0 : R; c1 : R; c2 : R; c3 : R }.

(** Comparison of a float with a float, as a byte. *)
Definition ltb (x y : R) : bool := if Rlt_dec x y then true else false.

(** ** Geometry primitives *)

Module Geometry.

(** [t.clone(); t[:, 0] = s[:, 0] + s[:, 2] * 0.5; t[:, 1] = s[:, 1] + s[:, 3] * 0.5] *)
Definition convert_bbox_topleft_xywh_tensor_to_center_xywh (t : list bbox) : list bbox :=
  map (fun b => mkbox (c0 b + c2 b * 0.5) (c1 b + c3 b * 0.5) (c2 b) (c3 b)) t.

Definition convert_bbox_center_xywh_tensor_to_xyxy (t : list bbox) : list bbox :=
  map (fun b => mkbox (c0 b - c2 b * 0.5) (c1 b - c3 b * 0.5)
                      (c0 b + c2 b * 0.5) (c1 b + c3 b * 0.5)) t.

Definition convert_bbox_topleft_xywh_tensor_to_xyxy (t : list bbox) : list bbox :=
  map (fun b => mkbox (c0 b) (c1 b) (c0 b + c2 b) (c1 b + c3 b)) t.

Definition convert_bbox_center_xywh_tensor_to_topleft_xywh (t : list bbox) : list bbox :=
  map (fun b => mkbox (c0 b - c2 b * 0.5) (c1 b - c3 b * 0.5) (c2 b) (c3 b)) t.

(** [torch.clamp(x, min=m)] *)
Definition clamp_min (x m : R) : R := if Rlt_dec x m then m else x.

(** One entry of [compute_bboxes_ious]: the pair (row of group 1, row of
    group 2) after broadcasting. *)
Definition iou_entry (a b : bbox) : R :=
  let top_left_x := Rmax (c0 a) (c0 b) in
  let top_left_y := Rmax (c1 a) (c1 b) in
  let bottom_right_x := Rmin (c2 a) (c2 b) in
  let bottom_right_y := Rmin (c3 a) (c3 b) in
  let width := clamp_min (bottom_right_x - top_left_x) 0 in
  let height := clamp_min (bottom_right_y - top_left_y) 0 in
  let intersections_bboxes_areas := width * height in
  let bboxes_group_1_areas := (c2 a - c0 a) * (c3 a - c1 a) in
  let bboxes_group_2_areas := (c2 b - c0 b) * (c3 b - c1 b) in
  intersections_bboxes_areas /
    (bboxes_group_1_areas + bboxes_group_2_areas - intersections_bboxes_areas).

Definition compute_bboxes_ious (g1 g2 : list bbox) : list (list R) :=
  map (fun a => map (fun b => iou_entry a b) g2) g1.

End Geometry.

Import Geometry.

(** ** Option as the exception monad *)

Definition obind {A B : Type} (o : option A) (f : A -> option B) : option B :=
  match o with Some x => f x | None => None end.

Notation "x <- e ;; k" := (obind e (fun x => k))
  (at level 61, e at next level, right associativity).

Fixpoint mapM {A B : Type} (f : A -> option B) (l : list A) : option (list B) :=
  match l with
  | [] => Some []
  | x :: l' => y <- f x ;; ys <- mapM f l' ;; Some (y :: ys)
  end.

(** ** Feature-map size and anchor generation *)

Module Anchors.

(** [np.ceil] followed by [astype(np.int)]: the least integer not below [x]. *)
Definition np_ceil (x : R) : Z := (1 - up (- x))%Z.

(** Integer form of [ceil (a / s)], used to compute grid sizes. *)
Definition ceil_div (a s : Z) : Z := (- ((- a) / s))%Z.

Definition compute_network_output_feature_map_size
    (input_img_size : Z * Z) (stride : Z) : Z * Z :=
  (np_ceil (IZR (fst input_img_size) / IZR stride),
   np_ceil (IZR (snd input_img_size) / IZR stride)).

(** [range(n)] *)
Definition range (n : Z) : list Z := map Z.of_nat (seq 0 (Z.to_nat n)).

(** [np.meshgrid(xs, ys)]: two arrays of shape (len ys, len xs); the first
    repeats [xs] on every row, the second is constant along each row. *)
Definition meshgrid (xs ys : list Z) : list (list Z) * list (list Z) :=
  (map (fun _ => xs) ys, map (fun y => map (fun _ => y) xs) ys).

(** [.flatten()] of a two-dimensional array (row-major). *)
Definition flatten {A : Type} (m : list (list A)) : list A := concat m.

(** The rows of the (#anchors, 1, 2) array returned by
    [get_anchor_boxes_center_coordinates], before [np.expand_dims]. *)
Definition anchor_coordinates_input (stride : Z) (input_size : Z * Z) : list (R * R) :=
  let '(feature_map_height, feature_map_width) :=
    compute_network_output_feature_map_size input_size stride in
  let '(meshgrid_width, meshgrid_height) :=
    meshgrid (range feature_map_width) (range feature_map_height) in
  let anchor_coordinates_feature_map :=
    combine (flatten meshgrid_height) (flatten meshgrid_width) in
  let anchor_coordinates_feature_map :=
    map (fun p => (IZR (fst p) + 0.5, IZR (snd p) + 0.5)) anchor_coordinates_feature_map in
  map (fun p => (fst p * IZR stride, snd p * IZR stride)) anchor_coordinates_feature_map.

(** [np.expand_dims(a, axis=1)] on an array of shape (n, 2). *)
Definition expand_dims_axis1 {A : Type} (a : list A) : list (list A) :=
  map (fun x => [x]) a.

(** [np.expand_dims(a, axis=0)] on an array of shape (K, 2). *)
Definition expand_dims_axis0 {A : Type} (a : list A) : list (list A) := [a].

Definition get_anchor_boxes_center_coordinates (stride : Z) (input_size : Z * Z)
    : list (list (R * R)) :=
  expand_dims_axis1 (anchor_coordinates_input stride input_size).

(** Half of the least positive binary64 number, [2 ^ -1075]: a real of
    at most this magnitude rounds to zero (to nearest, ties to even). *)
Definition binary64_half_least : R := / 2 ^ 1075.

(** The body of the inner loop of [get_anchor_boxes_sizes].  [math.sqrt]
    raises when the product, as a binary64 number, is negative; the float
    division raises when [w] is zero, which is when the product has
    rounded to zero. *)
Definition anchor_size (current_anchor_area current_aspect_ratio : R) : option (R * R) :=
  let product := current_aspect_ratio * current_anchor_area in
  if Rlt_dec product (- binary64_half_least) then None
  else
    let w := sqrt product in
    if Rle_dec product binary64_half_least then None
    else
      let h := current_anchor_area / w in
      Some (w, h).

(** The list [anchor_boxes_sizes] built by the two nested loops. *)
Definition anchor_boxes_sizes_list (anchor_areas aspect_ratios : list R)
    : option (list (R * R)) :=
  per_area <- mapM (fun current_anchor_area =>
                mapM (fun current_aspect_ratio =>
                        anchor_size current_anchor_area current_aspect_ratio)
                     aspect_ratios) anchor_areas ;;
  Some (concat per_area).

Definition get_anchor_boxes_sizes (anchor_areas aspect_ratios : list R)
    : option (list (list (R * R))) :=
  sizes <- anchor_boxes_sizes_list anchor_areas aspect_ratios ;;
  Some (expand_dims_axis0 sizes).

(** [a.repeat(k, axis=1)] on a three-dimensional array, rows as lists. *)
Definition repeat_axis1 {A : Type} (k : nat) (a : list (list A)) : list (list A) :=
  map (fun row => flat_map (fun x => repeat x k) row) a.

(** [a.repeat(n, axis=0)] *)
Definition repeat_axis0 {A : Type} (n : nat) (a : list (list A)) : list (list A) :=
  flat_map (fun row => repeat row n) a.

(** [np.dstack((a, b))] on arrays of shapes (n, K, 2) and (n, K, 2). *)
Definition dstack (a b : list (list (R * R))) : list (list bbox) :=
  map (fun rows =>
         map (fun p => mkbox (fst (fst p)) (snd (fst p)) (fst (snd p)) (snd (snd p)))
             (combine (fst rows) (snd rows)))
      (combine a b).

(** [precompute_anchor_boxes]: the value stored in [self.anchor_boxes]. *)
Definition precompute_anchor_boxes
    (anchor_areas aspect_ratios : list R) (stride : Z) (input_size : Z * Z)
    : option (list bbox) :=
  anchor_boxes_sizes <- get_anchor_boxes_sizes anchor_areas aspect_ratios ;;
  let anchor_boxes_center_coordinates :=
    get_anchor_boxes_center_coordinates stride input_size in
  let anchor_boxes_sizes_number := length (hd [] anchor_boxes_sizes) in
  let anchor_boxes_center_coordinates_number :=
    length anchor_boxes_center_coordinates in
  let anchor_boxes_center_coordinates_repeated :=
    repeat_axis1 anchor_boxes_sizes_number anchor_boxes_center_coordinates in
  let anchor_boxes_sizes_repeated :=
    repeat_axis0 anchor_boxes_center_coordinates_number anchor_boxes_sizes in
  let anchor_boxes :=
    dstack anchor_boxes_center_coordinates_repeated anchor_boxes_sizes_repeated in
  Some (flatten anchor_boxes).

(** The object: configuration fields and the precomputed tensor. *)
Record AnchorBoxesManager : Type := mkManager {
  input_image_size : Z * Z;
  anchor_areas : list R;
  aspect_ratios : list R;
  stride : Z;
  anchor_boxes : list bbox
}.

(** [__init__] *)
Definition init (input_image_size : Z * Z) (anchor_areas aspect_ratios : list R)
    (stride : Z) : option AnchorBoxesManager :=
  boxes <- precompute_anchor_boxes anchor_areas aspect_ratios stride input_image_size ;;
  Some (mkManager input_image_size anchor_areas aspect_ratios stride boxes).

(** The default arguments of the constructor. *)
Definition default_input_image_size : Z * Z := (600, 600)%Z.
Definition default_anchor_areas : list R := [128 * 128; 256 * 256; 512 * 512].
Definition default_aspect_ratios : list R := [1 / 2; 1 / 1; 2 / 1].
Definition default_stride : Z := 16%Z.

End Anchors.

Import Anchors.

(** ** Anchor-target encoder *)

Module Encode.

(** The reduction kernel behind [tensor.max(dim)]: a left-to-right scan
    that replaces the running maximum only by a strictly greater value, so
    that the index of the first maximal entry is returned. *)
Fixpoint max_scan (the_max : R) (the_index : nat) (i : nat) (row : list R) : R * nat :=
  match row with
  | [] => (the_max, the_index)
  | value :: row' =>
      if Rlt_dec the_max value
      then max_scan value i (S i) row'
      else max_scan the_max the_index (S i) row'
  end.

(** The reduction of one row; an empty row has no maximum. *)
Definition row_max (row : list R) : option (R * nat) :=
  match row with
  | [] => None
  | value :: row' => Some (max_scan value 0%nat 1%nat row')
  end.

(** [t.max(1)] on a tensor of shape (N, [dim1]): values and indices, one
    per row; a reduced dimension of size zero raises, also when there is
    no row. *)
Definition tensor_max_dim1 (dim1 : nat) (t : list (list R)) : option (list R * list nat) :=
  match dim1 with
  | O => None
  | S _ =>
      per_row <- mapM row_max t ;;
      Some (split per_row)
  end.

(** [t[ids]] with a long tensor of indices: a new tensor. *)
Definition index_select {A : Type} (t : list A) (ids : list nat) : option (list A) :=
  mapM (fun i => nth_error t i) ids.

(** [t[mask] = v] on a one-dimensional long tensor, by value. *)
Definition masked_fill (t : list Z) (mask : list bool) (v : Z) : list Z :=
  map (fun p : Z * bool => if snd p then v else fst p) (combine t mask).

(** [(g[:, :2] - a[:, :2]) / a[:, 2:]] *)
Definition delta_xy_rows (g a : list bbox) : list (R * R) :=
  map (fun p => ((c0 (fst p) - c0 (snd p)) / c2 (snd p),
                 (c1 (fst p) - c1 (snd p)) / c3 (snd p)))
      (combine g a).

(** [torch.log(g[:, 2:] / a[:, 2:])] *)
Definition delta_wh_rows (g a : list bbox) : list (R * R) :=
  map (fun p => (ln (c2 (fst p) / c2 (snd p)), ln (c3 (fst p) / c3 (snd p))))
      (combine g a).

(** [torch.cat((xy, wh), dim=1)] *)
Definition cat_dim1 (xy wh : list (R * R)) : list bbox :=
  map (fun p => mkbox (fst (fst p)) (snd (fst p)) (fst (snd p)) (snd (snd p)))
      (combine xy wh).

(** [encode], by value: [anchor_boxes] is [self.anchor_boxes]. *)
Definition encode (anchor_boxes : list bbox)
    (ground_truth_boxes_center_xywh : list bbox) (ground_truth_labels : list Z)
    : option (list bbox * list Z) :=
  let anchor_boxes_center_xywh := anchor_boxes in
  let anchor_boxes_xyxy :=
    convert_bbox_center_xywh_tensor_to_xyxy anchor_boxes_center_xywh in
  let ground_truth_boxes_xyxy :=
    convert_bbox_center_xywh_tensor_to_xyxy ground_truth_boxes_center_xywh in
  let ious := compute_bboxes_ious anchor_boxes_xyxy ground_truth_boxes_xyxy in
  best_match <- tensor_max_dim1 (length ground_truth_boxes_xyxy) ious ;;
  let '(best_match_ious, best_match_ids) := best_match in
  best_match_anchorwise <-
    index_select ground_truth_boxes_center_xywh best_match_ids ;;
  let delta_xy := delta_xy_rows best_match_anchorwise anchor_boxes_center_xywh in
  let delta_wh := delta_wh_rows best_match_anchorwise anchor_boxes_center_xywh in
  let target_deltas := cat_dim1 delta_xy delta_wh in
  matched_labels <- index_select ground_truth_labels best_match_ids ;;
  let target_labels := map (fun l => (l + 1)%Z) matched_labels in
  let target_labels :=
    masked_fill target_labels (map (fun v => ltb v 0.5) best_match_ious) 0%Z in
  let ignore :=
    map (fun v => ltb 0.4 v && ltb v 0.5) best_match_ious in
  let target_labels := masked_fill target_labels ignore (-1)%Z in
  Some (target_deltas, target_labels).

(** The method on the object. *)
Definition AnchorBoxesManager_encode (self : AnchorBoxesManager)
    (ground_truth_boxes_center_xywh : list bbox) (ground_truth_labels : list Z)
    : option (list bbox * list Z) :=
  encode (anchor_boxes self) ground_truth_boxes_center_xywh ground_truth_labels.

End Encode.

Import Encode.

(** ** Padding *)

Module Padding.

(** A PIL image with one band: its [size] attribute (width, height) and
    the pixel access [getpixel((x, y))]. *)
Record image : Type := mkimage { size : Z * Z; getpixel : Z -> Z -> Z }.

(** [Image.new(mode, size, color)] *)
Definition Image_new (sz : Z * Z) (color : Z) : image :=
  mkimage sz (fun _ _ => color).

(** [out.paste(im, (left, top))]: the pixels of [im] land in the box of
    its size whose upper left corner is [(left, top)]. *)
Definition paste (out im : image) (box : Z * Z) : image :=
  mkimage (size out)
    (fun x y =>
       if ((fst box <=? x) && (x <? fst box + fst (size im)) &&
           (snd box <=? y) && (y <? snd box + snd (size im)))%Z
       then getpixel im (x - fst box)%Z (y - snd box)%Z
       else getpixel out x y).

(** [ImageOps.expand(img, border=(left, top, right, bottom), fill=fill)]:
    a new image of the grown size, filled, with [img] pasted at
    [(left, top)]. *)
Definition ImageOps_expand (img : image) (border : Z * Z * Z * Z) (fill : Z) : image :=
  let '(b_left, b_top, b_right, b_bottom) := border in
  let width := (b_left + fst (size img) + b_right)%Z in
  let height := (b_top + snd (size img) + b_bottom)%Z in
  let out := Image_new (width, height) fill in
  paste out img (b_left, b_top).

Definition pad_to_size_with_bounding_boxes
    (input_img : image) (size_ : Z * Z) (bboxes_center_xywh : list bbox)
    (fill_label : Z) : image * list bbox :=
  let input_size := size input_img in
  let padded_size := size_ in
  let difference :=
    (fst padded_size - fst input_size, snd padded_size - snd input_size)%Z in
  let parts_to_expand := (0 <? fst difference, 0 <? snd difference)%Z in
  let expand_difference :=
    (fst difference * Z.b2z (fst parts_to_expand),
     snd difference * Z.b2z (snd parts_to_expand))%Z in
  let expand_difference_top_and_left :=
    (fst expand_difference / 2, snd expand_difference / 2)%Z in
  let expand_difference_bottom_and_right :=
    (fst expand_difference - fst expand_difference_top_and_left,
     snd expand_difference - snd expand_difference_top_and_left)%Z in
  let pil_expand_array :=
    (fst expand_difference_top_and_left, snd expand_difference_top_and_left,
     fst expand_difference_bottom_and_right,
     snd expand_difference_bottom_and_right) in
  let any :=
    negb (fst expand_difference_top_and_left =? 0)%Z ||
    negb (snd expand_difference_top_and_left =? 0)%Z ||
    negb (fst expand_difference_bottom_and_right =? 0)%Z ||
    negb (snd expand_difference_bottom_and_right =? 0)%Z in
  let processed_img :=
    if any then ImageOps_expand input_img pil_expand_array fill_label
    else input_img in
  let bboxes_center_xywhh_padded :=
    map (fun b =>
           mkbox (c0 b + IZR (fst expand_difference_top_and_left))
                 (c1 b + IZR (snd expand_difference_top_and_left))
                 (c2 b) (c3 b))
        bboxes_center_xywh in
  (processed_img, bboxes_center_xywhh_padded).

End Padding.

Import Padding.

(** ** The same code over a store of tensor objects

    Named tensors are objects in a store and variables hold references to
    them; [clone] and indexing by a long tensor allocate, assignment to a
    column or under a mask updates the referenced object in place.
    Temporaries that the source never names twice are values. *)

Module Store.

Inductive tensor : Type :=
| FloatTensor (rows : list bbox)
| LongTensor (values : list Z).

Definition store : Type := list tensor.
Definition ref : Type := nat.

Definition M (A : Type) : Type := store -> option (A * store).

Definition ret {A : Type} (a : A) : M A := fun s => Some (a, s).

Definition bind {A B : Type} (m : M A) (f : A -> M B) : M B :=
  fun s => match m s with Some (a, s') => f a s' | None => None end.

Notation "x <~ e ;; k" := (bind e (fun x => k))
  (at level 61, e at next level, right associativity).
Notation "e ;;; k" := (bind e (fun _ => k))
  (at level 61, right associativity).

Definition lift {A : Type} (o : option A) : M A :=
  fun s => match o with Some a => Some (a, s) | None => None end.

(** Allocation of a new object. *)
Definition new (t : tensor) : M ref := fun s => Some (length s, s ++ [t]).

Definition read (r : ref) : M tensor :=
  fun s => match nth_error s r with Some t => Some (t, s) | None => None end.

Definition read_float (r : ref) : M (list bbox) :=
  t <~ read r ;;
  match t with FloatTensor rows => ret rows | LongTensor _ => lift None end.

Definition read_long (r : ref) : M (list Z) :=
  t <~ read r ;;
  match t with LongTensor values => ret values | FloatTensor _ => lift None end.

(** In-place replacement of the contents of an object. *)
Definition write (r : ref) (t : tensor) : M unit :=
  fun s => match nth_error s r with
           | Some _ => Some (tt, firstn r s ++ t :: skipn (S r) s)
           | None => None
           end.

(** [t.clone()] *)
Definition clone (r : ref) : M ref := t <~ read r ;; new t.

Definition set_column (k : nat) (b : bbox) (v : R) : bbox :=
  match k with
  | 0%nat => mkbox v (c1 b) (c2 b) (c3 b)
  | 1%nat => mkbox (c0 b) v (c2 b) (c3 b)
  | 2%nat => mkbox (c0 b) (c1 b) v (c3 b)
  | _ => mkbox (c0 b) (c1 b) (c2 b) v
  end.

(** [dst[:, k] = values] *)
Definition assign_column (dst : ref) (k : nat) (values : list R) : M unit :=
  rows <~ read_float dst ;;
  write dst (FloatTensor (map (fun p => set_column k (fst p) (snd p))
                              (combine rows values))).

(** [dst[mask] = v] *)
Definition assign_masked (dst : ref) (mask : list bool) (v : Z) : M unit :=
  values <~ read_long dst ;;
  write dst (LongTensor (masked_fill values mask v)).

Definition convert_bbox_center_xywh_tensor_to_xyxy (bbox_center_xywh_tensor : ref) : M ref :=
  bbox_xyxy_tensor <~ clone bbox_center_xywh_tensor ;;
  t <~ read_float bbox_center_xywh_tensor ;;
  assign_column bbox_xyxy_tensor 0 (map (fun b => c0 b - c2 b * 0.5) t) ;;;
  t <~ read_float bbox_center_xywh_tensor ;;
  assign_column bbox_xyxy_tensor 1 (map (fun b => c1 b - c3 b * 0.5) t) ;;;
  t <~ read_float bbox_center_xywh_tensor ;;
  assign_column bbox_xyxy_tensor 2 (map (fun b => c0 b + c2 b * 0.5) t) ;;;
  t <~ read_float bbox_center_xywh_tensor ;;
  assign_column bbox_xyxy_tensor 3 (map (fun b => c1 b + c3 b * 0.5) t) ;;;
  ret bbox_xyxy_tensor.

Definition convert_bbox_topleft_xywh_tensor_to_center_xywh
    (bbox_topleft_xywh_tensor : ref) : M ref :=
  bbox_center_xywh_tensor <~ clone bbox_topleft_xywh_tensor ;;
  t <~ read_float bbox_topleft_xywh_tensor ;;
  assign_column bbox_center_xywh_tensor 0 (map (fun b => c0 b + c2 b * 0.5) t) ;;;
  t <~ read_float bbox_topleft_xywh_tensor ;;
  assign_column bbox_center_xywh_tensor 1 (map (fun b => c1 b + c3 b * 0.5) t) ;;;
  ret bbox_center_xywh_tensor.

Definition convert_bbox_topleft_xywh_tensor_to_xyxy
    (bbox_topleft_xywh_tensor : ref) : M ref :=
  bbox_xyxy_tensor <~ clone bbox_topleft_xywh_tensor ;;
  t <~ read_float bbox_topleft_xywh_tensor ;;
  assign_column bbox_xyxy_tensor 2 (map (fun b => c0 b + c2 b) t) ;;;
  t <~ read_float bbox_topleft_xywh_tensor ;;
  assign_column bbox_xyxy_tensor 3 (map (fun b => c1 b + c3 b) t) ;;;
  ret bbox_xyxy_tensor.

Definition convert_bbox_center_xywh_tensor_to_topleft_xywh
    (bbox_center_xywh_tensor : ref) : M ref :=
  bbox_topleft_xywh_tensor <~ clone bbox_center_xywh_tensor ;;
  t <~ read_float bbox_center_xywh_tensor ;;
  assign_column bbox_topleft_xywh_tensor 0 (map (fun b => c0 b - c2 b * 0.5) t) ;;;
  t <~ read_float bbox_center_xywh_tensor ;;
  assign_column bbox_topleft_xywh_tensor 1 (map (fun b => c1 b - c3 b * 0.5) t) ;;;
  ret bbox_topleft_xywh_tensor.

(** [compute_bboxes_ious] only reads its arguments; its result is a
    temporary. *)
Definition compute_bboxes_ious (g1 g2 : ref) : M (list (list R)) :=
  a <~ read_float g1 ;;
  b <~ read_float g2 ;;
  ret (Geometry.compute_bboxes_ious a b).

Definition encode (self_anchor_boxes : ref)
    (ground_truth_boxes_center_xywh ground_truth_labels : ref) : M (ref * ref) :=
  let anchor_boxes_center_xywh := self_anchor_boxes in
  anchor_boxes_xyxy <~ convert_bbox_center_xywh_tensor_to_xyxy anchor_boxes_center_xywh ;;
  ground_truth_boxes_xyxy <~
    convert_bbox_center_xywh_tensor_to_xyxy ground_truth_boxes_center_xywh ;;
  ious <~ compute_bboxes_ious anchor_boxes_xyxy ground_truth_boxes_xyxy ;;
  boxes <~ read_float ground_truth_boxes_xyxy ;;
  best_match <~ lift (tensor_max_dim1 (length boxes) ious) ;;
  let '(best_match_ious, best_match_ids) := best_match in
  gt <~ read_float ground_truth_boxes_center_xywh ;;
  best_match_anchorwise <~ lift (index_select gt best_match_ids) ;;
  anchors <~ read_float anchor_boxes_center_xywh ;;
  let delta_xy := delta_xy_rows best_match_anchorwise anchors in
  anchors <~ read_float anchor_boxes_center_xywh ;;
  let delta_wh := delta_wh_rows best_match_anchorwise anchors in
  target_deltas <~ new (FloatTensor (cat_dim1 delta_xy delta_wh)) ;;
  labels <~ read_long ground_truth_labels ;;
  matched_labels <~ lift (index_select labels best_match_ids) ;;
  target_labels <~ new (LongTensor (map (fun l => (l + 1)%Z) matched_labels)) ;;
  assign_masked target_labels (map (fun v => ltb v 0.5) best_match_ious) 0%Z ;;;
  let ignore := map (fun v => ltb 0.4 v && ltb v 0.5) best_match_ious in
  assign_masked target_labels ignore (-1)%Z ;;;
  ret (target_deltas, target_labels).

(** [s'] keeps every object of [s] as it is (and may hold more). *)
Definition unchanged (s s' : store) : Prop :=
  forall r : ref, (r < length s)%nat -> nth_error s' r = nth_error s r.

End Store.

(** ** Notions used in the statements *)

(** [v] is the maximum of [row] and [j] is the first index where it occurs. *)
Definition first_argmax (row : list R) (j : nat) (v : R) : Prop :=
  nth_error row j = Some v /\
  (forall k x, nth_error row k = Some x -> x <= v) /\
  (forall k x, (k < j)%nat -> nth_error row k = Some x -> x < v).

(** The cell center as the code computes it from a pair taken from the
    zipped grids: both components get [+ 0.5] and [* stride]. *)
Definition cell_center (stride : Z) (p : Z * Z) : R * R :=
  ((IZR (fst p) + 0.5) * IZR stride, (IZR (snd p) + 0.5) * IZR stride).

(** The pair appended by the loop body, when it does not raise. *)
Definition size_of (area ratio : R) : R * R :=
  (sqrt (ratio * area), area / sqrt (ratio * area)).

(** One row after [np.dstack] and [reshape]: a center followed by a size. *)
Definition anchor_of (ctr sz : R * R) : bbox :=
  mkbox (fst ctr) (snd ctr) (fst sz) (snd sz).

(** One row of [convert_bbox_center_xywh_tensor_to_xyxy]. *)
Definition xyxy_of (b : bbox) : bbox :=
  mkbox (c0 b - c2 b * 0.5) (c1 b - c3 b * 0.5)
        (c0 b + c2 b * 0.5) (c1 b + c3 b * 0.5).

(** The row of the matrix of overlaps that belongs to anchor [a]. *)
Definition ious_row (a : bbox) (gt : list bbox) : list R :=
  map (iou_entry (xyxy_of a)) (convert_bbox_center_xywh_tensor_to_xyxy gt).

(** One row of [target_deltas]: [delta_xy] and [delta_wh] side by side. *)
Definition delta_of (g a : bbox) : bbox :=
  mkbox ((c0 g - c0 a) / c2 a) ((c1 g - c1 a) / c3 a)
        (ln (c2 g / c2 a)) (ln (c3 g / c3 a)).

(** One entry of [target_labels] after the two masked assignments, the
    second one applied last. *)
Definition label_of (v : R) (gl : Z) : Z :=
  if ltb 0.4 v && ltb v 0.5 then (-1)%Z
  else if ltb v 0.5 then 0%Z else (gl + 1)%Z.

(** [frame n m Q]: run from a store with at least [n] objects, [m] keeps
    the first [n] objects as they are, never shrinks the store, and its
    result satisfies [Q]. *)
Definition frame {A : Type} (n : nat) (m : Store.M A) (Q : A -> Prop) : Prop :=
  forall s x s',
    (n <= length s)%nat -> m s = Some (x, s') ->
    (length s <= length s')%nat /\
    (forall r, (r < n)%nat -> nth_error s' r = nth_error s r) /\
    Q x.

(** Entry (i, j) of a two-dimensional tensor, when both indices are in range. *)
Definition entry (m : list (list R)) (i j : nat) : option R :=
  row <- nth_error m i ;; nth_error row j.

(** A box in xyxy format whose corners are in order. *)
Definition valid_xyxy (b : bbox) : Prop := c0 b <= c2 b /\ c1 b <= c3 b.

(** The same box moved by [(dx, dy)], sizes kept (center_xywh or topleft_xywh). *)
Definition shift (dx dy : R) (b : bbox) : bbox :=
  mkbox (c0 b + dx) (c1 b + dy) (c2 b) (c3 b).

(** What [encode] does for one anchor, the stages taken in a row: best
    match of its row of overlaps, the matched box and label, then the
    delta and the thresholded label. *)
Definition encode_anchor (gt : list bbox) (labels : list Z) (a : bbox)
    : option (bbox * Z) :=
  best <- row_max (ious_row a gt) ;;
  g <- nth_error gt (snd best) ;;
  gl <- nth_error labels (snd best) ;;
  Some (delta_of g a, label_of (fst best) gl).



(** * Properties *)

Lemma bbox_ext (a b : bbox) :
  c0 a = c0 b -> c1 a = c1 b -> c2 a = c2 b -> c3 a = c3 b -> a = b.
Proof. destruct a, b; simpl; intros; subst; reflexivity. Qed.

Lemma ltb_true (x y : R) : ltb x y = true <-> x < y.
Proof. unfold ltb; destruct (Rlt_dec x y); split; intros; try easy. Qed.

Lemma ltb_false (x y : R) : ltb x y = false <-> y <= x.
Proof.
  unfold ltb; destruct (Rlt_dec x y); split; intros; try easy; lra.
Qed.

Lemma clamp_min_0 (x : R) : clamp_min x 0 = Rmax 0 x.
Proof.
  unfold clamp_min, Rmax.
  destruct (Rlt_dec x 0), (Rle_dec 0 x); try reflexivity; lra.
Qed.

Lemma compute_bboxes_ious_shape (g1 g2 : list bbox) :
  length (compute_bboxes_ious g1 g2) = length g1 /\
  Forall (fun row => length row = length g2) (compute_bboxes_ious g1 g2).
Proof.
  unfold compute_bboxes_ious; split.
  - apply length_map.
  - apply Forall_forall; intros row Hin.
    apply in_map_iff in Hin as [a [<- _]]. apply length_map.
Qed.

Lemma compute_bboxes_ious_row (g1 g2 : list bbox) (i : nat) (a : bbox) :
  nth_error g1 i = Some a ->
  nth_error (compute_bboxes_ious g1 g2) i = Some (map (iou_entry a) g2).
Proof.
  intros H. unfold compute_bboxes_ious.
  rewrite nth_error_map, H. reflexivity.
Qed.

(** C5. Each entry of the result of [compute_bboxes_ious] is the clamped
    intersection area over the union area: for rows [a] of the first group
    and [b] of the second (xyxy), entry (i, j) is
    [inter / (area a + area b - inter)] with
    [inter = max 0 (min x1 - max x0) * max 0 (min y1 - max y0)]. *)
Theorem compute_bboxes_ious_entry :
  forall (g1 g2 : list bbox) (i j : nat) (a b : bbox),
    nth_error g1 i = Some a ->
    nth_error g2 j = Some b ->
    let inter := Rmax 0 (Rmin (c2 a) (c2 b) - Rmax (c0 a) (c0 b)) *
                 Rmax 0 (Rmin (c3 a) (c3 b) - Rmax (c1 a) (c1 b)) in
    let area_i := (c2 a - c0 a) * (c3 a - c1 a) in
    let area_j := (c2 b - c0 b) * (c3 b - c1 b) in
    exists row,
      nth_error (compute_bboxes_ious g1 g2) i = Some row /\
      nth_error row j = Some (inter / (area_i + area_j - inter)) /\
      (Rmin (c2 a) (c2 b) <= Rmax (c0 a) (c0 b) \/
       Rmin (c3 a) (c3 b) <= Rmax (c1 a) (c1 b) -> inter = 0).
Proof.
  intros g1 g2 i j a b Ha Hb inter area_i area_j.
  exists (map (iou_entry a) g2). split; [|split].
  - apply compute_bboxes_ious_row; assumption.
  - rewrite nth_error_map, Hb. simpl. f_equal.
    unfold iou_entry. rewrite !clamp_min_0. reflexivity.
  - unfold inter. intros [H | H].
    + rewrite (Rmax_left 0) by lra. ring.
    + rewrite (Rmax_left 0 (Rmin (c3 a) (c3 b) - _)) by lra. ring.
Qed.

(** ** Round trips between [topleft_xywh] and [center_xywh] *)

Lemma map_id_ext {A : Type} (f : A -> A) (l : list A) :
  (forall x, f x = x) -> map f l = l.
Proof.
  intros H; induction l as [|x l IH]; simpl; [reflexivity|].
  rewrite H, IH; reflexivity.
Qed.

(** C7. The conversions [convert_bbox_topleft_xywh_tensor_to_center_xywh]
    and [convert_bbox_center_xywh_tensor_to_topleft_xywh] are mutually
    inverse on every tensor of boxes: each composition reproduces the
    original tensor (in exact arithmetic the tolerance is zero, and the
    sign of [w] and [h] plays no role). *)
Theorem topleft_center_round_trip :
  forall t : list bbox,
    convert_bbox_center_xywh_tensor_to_topleft_xywh
      (convert_bbox_topleft_xywh_tensor_to_center_xywh t) = t /\
    convert_bbox_topleft_xywh_tensor_to_center_xywh
      (convert_bbox_center_xywh_tensor_to_topleft_xywh t) = t.
Proof.
  intros t.
  unfold convert_bbox_center_xywh_tensor_to_topleft_xywh,
         convert_bbox_topleft_xywh_tensor_to_center_xywh.
  rewrite !map_map. split; apply map_id_ext; intros b;
    apply bbox_ext; simpl; lra.
Qed.

(** ** Lists: flattening of uniform blocks *)

Section Blocks.

Context {A B : Type}.

Lemma length_flat_map_uniform (f : A -> list B) (K : nat) (l : list A) :
  (forall y, In y l -> length (f y) = K) ->
  length (flat_map f l) = (length l * K)%nat.
Proof.
  induction l as [|y l IH]; intros H; simpl; [reflexivity|].
  rewrite length_app, H by (left; reflexivity).
  rewrite IH by (intros z Hz; apply H; right; exact Hz). reflexivity.
Qed.

Lemma nth_error_flat_map_uniform (f : A -> list B) (K : nat) (l : list A) :
  (forall y, In y l -> length (f y) = K) ->
  forall (i k : nat) (x : A),
    nth_error l i = Some x -> (k < K)%nat ->
    nth_error (flat_map f l) (i * K + k) = nth_error (f x) k.
Proof.
  induction l as [|y l IH]; intros H i k x Hi Hk.
  - destruct i; discriminate.
  - destruct i as [|i]; simpl in *.
    + injection Hi as ->. apply nth_error_app1.
      rewrite H by (left; reflexivity). exact Hk.
    + rewrite nth_error_app2; rewrite H by (left; reflexivity); [|lia].
      replace (K + i * K + k - K)%nat with (i * K + k)%nat by lia.
      apply IH; auto.
Qed.

Lemma combine_repeat_l (c : A) (l : list B) :
  combine (repeat c (length l)) l = map (fun x => (c, x)) l.
Proof. induction l as [|x l IH]; simpl; [|rewrite IH]; reflexivity. Qed.

Lemma combine_map_repeat {C : Type} (f : A -> C) (s : B) (l : list A) :
  combine (map f l) (repeat s (length l)) = map (fun x => (f x, s)) l.
Proof. induction l as [|x l IH]; simpl; [|rewrite IH]; reflexivity. Qed.

Lemma combine_app_same (a c : list A) (b d : list B) :
  length a = length b ->
  combine (a ++ c) (b ++ d) = combine a b ++ combine c d.
Proof.
  revert b; induction a as [|x a IH]; intros [|y b] H; simpl in *;
    try discriminate; [reflexivity|].
  rewrite IH by lia. reflexivity.
Qed.

End Blocks.

Lemma mapM_Some {A B : Type} (f : A -> option B) (g : A -> B) (l : list A) :
  (forall x, In x l -> f x = Some (g x)) -> mapM f l = Some (map g l).
Proof.
  induction l as [|x l IH]; intros H; simpl; [reflexivity|].
  rewrite H by (left; reflexivity). simpl.
  rewrite IH by (intros y Hy; apply H; right; exact Hy). reflexivity.
Qed.

Lemma mapM_length {A B : Type} (f : A -> option B) (l : list A) (r : list B) :
  mapM f l = Some r -> length r = length l.
Proof.
  revert r; induction l as [|x l IH]; intros r; simpl.
  - intros [= <-]; reflexivity.
  - destruct (f x); simpl; [|discriminate].
    destruct (mapM f l); simpl; [|discriminate].
    intros [= <-]; simpl. rewrite (IH l0); reflexivity.
Qed.

Lemma mapM_nth_error {A B : Type} (f : A -> option B) (l : list A) (r : list B) :
  mapM f l = Some r ->
  forall i x, nth_error l i = Some x ->
    exists y, f x = Some y /\ nth_error r i = Some y.
Proof.
  revert r; induction l as [|x l IH]; intros r; simpl.
  - intros _ [|i] y; discriminate.
  - destruct (f x) as [b|] eqn:Hb; simpl; [|discriminate].
    destruct (mapM f l) as [bs|]; simpl; [|discriminate].
    intros [= <-] [|i] y; simpl.
    + intros [= <-]; exists b; auto.
    + intros Hi. apply (IH bs eq_refl); exact Hi.
Qed.

(** ** Feature-map size *)

Lemma np_ceil_spec (x : R) : IZR (np_ceil x) - 1 < x <= IZR (np_ceil x).
Proof.
  unfold np_ceil. rewrite minus_IZR.
  destruct (archimed (- x)) as [H1 H2]. lra.
Qed.

Lemma np_ceil_unique (x : R) (z : Z) : IZR z - 1 < x <= IZR z -> np_ceil x = z.
Proof.
  intros [H1 H2]. unfold np_ceil.
  rewrite <- (tech_up (- x) (1 - z)%Z); [lia| |]; rewrite minus_IZR; lra.
Qed.

Lemma np_ceil_div (a s : Z) :
  (0 < s)%Z -> np_ceil (IZR a / IZR s) = ceil_div a s.
Proof.
  intros Hs. apply np_ceil_unique. unfold ceil_div.
  pose proof (Z.mul_div_le (- a) s Hs) as Hle.
  pose proof (Z.mul_succ_div_gt (- a) s Hs) as Hgt.
  apply IZR_le in Hle. apply IZR_lt in Hgt.
  rewrite mult_IZR in Hle, Hgt. rewrite succ_IZR in Hgt.
  rewrite opp_IZR in *.
  assert (Hs' : 0 < IZR s) by (apply IZR_lt; exact Hs).
  set (q := IZR (- a / s)) in *.
  assert (Hx : IZR a / IZR s * IZR s = IZR a) by (field; lra).
  set (x := IZR a / IZR s) in *.
  split; nra.
Qed.

Lemma feature_map_size_ceil_div (input_img_size : Z * Z) (stride : Z) :
  (0 < stride)%Z ->
  compute_network_output_feature_map_size input_img_size stride =
  (ceil_div (fst input_img_size) stride, ceil_div (snd input_img_size) stride).
Proof.
  intros H. unfold compute_network_output_feature_map_size.
  rewrite !np_ceil_div by exact H. reflexivity.
Qed.

(** ** Anchor centers *)

Lemma length_range (n : Z) : length (range n) = Z.to_nat n.
Proof. unfold range. rewrite length_map, length_seq. reflexivity. Qed.

Lemma nth_error_range (n : Z) (i : nat) :
  (i < Z.to_nat n)%nat -> nth_error (range n) i = Some (Z.of_nat i).
Proof.
  intros H. unfold range. rewrite nth_error_map.
  rewrite (nth_error_nth' _ 0%nat) by (rewrite length_seq; exact H).
  rewrite seq_nth by exact H. reflexivity.
Qed.

Lemma meshgrid_zip (xs ys : list Z) :
  combine (flatten (snd (meshgrid xs ys))) (flatten (fst (meshgrid xs ys))) =
  flat_map (fun y => map (fun x => (y, x)) xs) ys.
Proof.
  unfold meshgrid, flatten; simpl.
  induction ys as [|y ys IH]; simpl; [reflexivity|].
  rewrite combine_app_same by apply length_map.
  rewrite IH. f_equal.
  clear. induction xs as [|x xs IH]; simpl; [|rewrite IH]; reflexivity.
Qed.

Lemma anchor_coordinates_input_grid (stride : Z) (input_size : Z * Z) :
  anchor_coordinates_input stride input_size =
  flat_map (fun r => map (fun c => cell_center stride (r, c))
                         (range (snd (compute_network_output_feature_map_size input_size stride))))
           (range (fst (compute_network_output_feature_map_size input_size stride))).
Proof.
  unfold anchor_coordinates_input.
  destruct (compute_network_output_feature_map_size input_size stride) as [fh fw].
  simpl fst; simpl snd.
  pose proof (meshgrid_zip (range fw) (range fh)) as Hz.
  destruct (meshgrid (range fw) (range fh)) as [mw mh]. simpl in Hz.
  rewrite Hz, map_map. rewrite !flat_map_concat_map.
  rewrite concat_map, map_map. f_equal.
  apply map_ext; intros r. rewrite map_map. reflexivity.
Qed.

Lemma anchor_coordinates_input_length (stride : Z) (input_size : Z * Z) :
  length (anchor_coordinates_input stride input_size) =
  (Z.to_nat (fst (compute_network_output_feature_map_size input_size stride)) *
   Z.to_nat (snd (compute_network_output_feature_map_size input_size stride)))%nat.
Proof.
  rewrite anchor_coordinates_input_grid.
  rewrite (length_flat_map_uniform _
             (Z.to_nat (snd (compute_network_output_feature_map_size input_size stride)))).
  - rewrite length_range. reflexivity.
  - intros y _. rewrite length_map, length_range. reflexivity.
Qed.

Lemma anchor_coordinates_input_nth (stride : Z) (input_size : Z * Z) (r c : nat) :
  let fh := fst (compute_network_output_feature_map_size input_size stride) in
  let fw := snd (compute_network_output_feature_map_size input_size stride) in
  (r < Z.to_nat fh)%nat -> (c < Z.to_nat fw)%nat ->
  nth_error (anchor_coordinates_input stride input_size) (r * Z.to_nat fw + c) =
  Some ((INR r + 0.5) * IZR stride, (INR c + 0.5) * IZR stride).
Proof.
  intros fh fw Hr Hc. rewrite anchor_coordinates_input_grid. fold fh fw.
  rewrite (nth_error_flat_map_uniform _ (Z.to_nat fw) _) with (x := Z.of_nat r).
  - rewrite nth_error_map, nth_error_range by exact Hc. simpl.
    unfold cell_center; simpl. rewrite <- !INR_IZR_INZ. reflexivity.
  - intros y _. rewrite length_map, length_range. reflexivity.
  - apply nth_error_range; exact Hr.
  - exact Hc.
Qed.

(** ** Anchor sizes *)

Lemma binary64_half_least_pos : 0 < binary64_half_least.
Proof.
  unfold binary64_half_least. apply Rinv_0_lt_compat, pow_lt. lra.
Qed.

Lemma binary64_half_least_le_1 : binary64_half_least <= 1.
Proof.
  unfold binary64_half_least. rewrite <- Rinv_1.
  apply Rinv_le_contravar; [lra|]. apply pow_R1_Rle. lra.
Qed.

Lemma anchor_size_above (area ratio : R) :
  binary64_half_least < ratio * area ->
  anchor_size area ratio = Some (sqrt (ratio * area), area / sqrt (ratio * area)) /\
  0 < sqrt (ratio * area).
Proof.
  intros Hp. pose proof binary64_half_least_pos as Hb.
  split; [|apply sqrt_lt_R0; lra].
  unfold anchor_size.
  destruct (Rlt_dec (ratio * area) (- binary64_half_least)) as [H|_]; [lra|].
  destruct (Rle_dec (ratio * area) binary64_half_least) as [H|_]; [lra|].
  reflexivity.
Qed.

Lemma anchor_size_Some (area ratio : R) (p : R * R) :
  anchor_size area ratio = Some p ->
  p = size_of area ratio /\ binary64_half_least < ratio * area.
Proof.
  unfold anchor_size, size_of.
  destruct (Rlt_dec (ratio * area) (- binary64_half_least)); [discriminate|].
  destruct (Rle_dec (ratio * area) binary64_half_least); [discriminate|].
  intros [= <-]. split; [reflexivity|lra].
Qed.

Lemma mapM_Some_inv {A B : Type} (f : A -> option B) (g : A -> B) (l : list A) (r : list B) :
  (forall x y, f x = Some y -> y = g x) -> mapM f l = Some r -> r = map g l.
Proof.
  intros Hg. revert r; induction l as [|x l IH]; intros r; simpl.
  - intros [= <-]; reflexivity.
  - destruct (f x) as [b|] eqn:Hb; simpl; [|discriminate].
    destruct (mapM f l) as [bs|]; simpl; [|discriminate].
    intros [= <-]. rewrite (Hg x b Hb), (IH bs eq_refl). reflexivity.
Qed.

Lemma anchor_boxes_sizes_list_Some (areas ratios : list R) (sizes : list (R * R)) :
  anchor_boxes_sizes_list areas ratios = Some sizes ->
  sizes = flat_map (fun area => map (fun ratio => size_of area ratio) ratios) areas.
Proof.
  unfold anchor_boxes_sizes_list.
  destruct (mapM _ areas) as [per_area|] eqn:Hm; simpl; [|discriminate].
  intros [= <-]. rewrite flat_map_concat_map. f_equal.
  apply (mapM_Some_inv _ _ _ _ (fun area row Hrow =>
           mapM_Some_inv _ (size_of area) ratios row
             (fun ratio p Hp => proj1 (anchor_size_Some area ratio p Hp)) Hrow) Hm).
Qed.

Lemma anchor_boxes_sizes_list_above (areas ratios : list R) :
  (forall area ratio, In area areas -> In ratio ratios ->
     binary64_half_least < ratio * area) ->
  anchor_boxes_sizes_list areas ratios =
  Some (flat_map (fun area => map (fun ratio => size_of area ratio) ratios) areas).
Proof.
  intros Hp. unfold anchor_boxes_sizes_list.
  rewrite (mapM_Some _ (fun area => map (size_of area) ratios)).
  - simpl. rewrite flat_map_concat_map. reflexivity.
  - intros area Hin. apply mapM_Some. intros ratio Hin'.
    apply anchor_size_above; auto.
Qed.

(** ** The anchor set *)

Lemma precompute_anchor_boxes_flat (areas ratios : list R) (stride : Z)
    (input_size : Z * Z) (sizes : list (R * R)) :
  anchor_boxes_sizes_list areas ratios = Some sizes ->
  precompute_anchor_boxes areas ratios stride input_size =
  Some (flat_map (fun ctr => map (fun sz => anchor_of ctr sz) sizes)
                 (anchor_coordinates_input stride input_size)).
Proof.
  intros Hs. unfold precompute_anchor_boxes, get_anchor_boxes_sizes.
  rewrite Hs. simpl. f_equal.
  unfold get_anchor_boxes_center_coordinates, expand_dims_axis0, expand_dims_axis1.
  set (centers := anchor_coordinates_input stride input_size).
  unfold repeat_axis0, repeat_axis1, dstack, flatten. simpl.
  rewrite app_nil_r, length_map, map_map.
  rewrite (combine_map_repeat _ sizes centers), map_map.
  rewrite flat_map_concat_map. f_equal.
  apply map_ext; intros ctr. simpl. rewrite app_nil_r.
  rewrite combine_repeat_l, map_map. reflexivity.
Qed.

Lemma sizes_length (areas ratios : list R) :
  length (flat_map (fun area => map (fun ratio => size_of area ratio) ratios) areas) =
  (length areas * length ratios)%nat.
Proof.
  apply length_flat_map_uniform. intros y _. apply length_map.
Qed.

Lemma default_sizes_above (area ratio : R) :
  In area default_anchor_areas -> In ratio default_aspect_ratios ->
  binary64_half_least < ratio * area.
Proof.
  pose proof binary64_half_least_le_1 as Hb.
  unfold default_anchor_areas, default_aspect_ratios. simpl.
  intros [<- | [<- | [<- | []]]] [<- | [<- | [<- | []]]]; lra.
Qed.

(** C3. The anchor set is the flat sequence in which index [i * K + k]
    holds the box made of center [i] and size [k]; centers run row-major
    over the grid of [ceil] sizes, sizes run with areas outside and ratios
    inside, [K = #areas * #ratios], and the number of anchors is
    [K * (rows * columns)]: 12996 for the default configuration. *)
Theorem precompute_anchor_boxes_layout :
  (forall (areas ratios : list R) (stride : Z) (input_size : Z * Z)
          (sizes : list (R * R)),
      anchor_boxes_sizes_list areas ratios = Some sizes ->
      let rows := Z.to_nat (np_ceil (IZR (fst input_size) / IZR stride)) in
      let columns := Z.to_nat (np_ceil (IZR (snd input_size) / IZR stride)) in
      let centers := anchor_coordinates_input stride input_size in
      let K := (length areas * length ratios)%nat in
      exists anchors,
        precompute_anchor_boxes areas ratios stride input_size = Some anchors /\
        length sizes = K /\
        length centers = (rows * columns)%nat /\
        length anchors = (K * (rows * columns))%nat /\
        (forall i k ctr sz,
            nth_error centers i = Some ctr -> nth_error sizes k = Some sz ->
            nth_error anchors (i * K + k) =
            Some (mkbox (fst ctr) (snd ctr) (fst sz) (snd sz))) /\
        (forall r c, (r < rows)%nat -> (c < columns)%nat ->
            nth_error centers (r * columns + c) =
            Some ((INR r + 0.5) * IZR stride, (INR c + 0.5) * IZR stride)) /\
        (forall a b area ratio,
            nth_error areas a = Some area -> nth_error ratios b = Some ratio ->
            nth_error sizes (a * length ratios + b) =
            Some (sqrt (ratio * area), area / sqrt (ratio * area)))) /\
  (exists anchors,
      precompute_anchor_boxes default_anchor_areas default_aspect_ratios
        default_stride default_input_image_size = Some anchors /\
      Z.of_nat (length anchors) = 12996%Z /\
      (12996 = 9 * (38 * 38))%Z).
Proof.
  split.
  - intros areas ratios stride input_size sizes Hs rows columns centers K.
    pose proof (anchor_boxes_sizes_list_Some _ _ _ Hs) as Hsz.
    assert (HK : length sizes = K) by (rewrite Hsz; apply sizes_length).
    assert (Hc : length centers = (rows * columns)%nat)
      by apply anchor_coordinates_input_length.
    eexists. split; [apply precompute_anchor_boxes_flat; exact Hs|].
    split; [exact HK|]. split; [exact Hc|]. split; [|split; [|split]].
    + rewrite (length_flat_map_uniform _ K).
      * fold centers. rewrite Hc. lia.
      * intros y _. rewrite length_map. exact HK.
    + intros i k ctr sz Hi Hk.
      rewrite (nth_error_flat_map_uniform _ K _) with (x := ctr).
      * rewrite nth_error_map, Hk. reflexivity.
      * intros y _. rewrite length_map. exact HK.
      * exact Hi.
      * rewrite <- HK. apply nth_error_Some. rewrite Hk. discriminate.
    + intros r c Hr Hc'.
      apply (anchor_coordinates_input_nth stride input_size r c Hr Hc').
    + intros a b area ratio Ha Hb. rewrite Hsz.
      rewrite (nth_error_flat_map_uniform _ (length ratios) _) with (x := area).
      * rewrite nth_error_map, Hb. reflexivity.
      * intros y _. apply length_map.
      * exact Ha.
      * apply nth_error_Some. rewrite Hb. discriminate.
  - pose proof (anchor_boxes_sizes_list_above _ _ default_sizes_above) as Hs.
    eexists. split; [apply precompute_anchor_boxes_flat; exact Hs|].
    split; [|reflexivity].
    rewrite (length_flat_map_uniform _ 9).
    + rewrite anchor_coordinates_input_length.
      rewrite feature_map_size_ceil_div by reflexivity. reflexivity.
    + intros y _. rewrite length_map, sizes_length. reflexivity.
Qed.

(** C4, evaluated on a grid of one row and two columns (input size
    (16, 32), stride 16): the code zips the row grid first and the column
    grid second, so the cell at row 0 and column 1 is stored as (8, 24),
    first coordinate from the row index, and not as (24, 8). *)
Theorem anchor_centers_row_index_first :
  compute_network_output_feature_map_size (16, 32)%Z 16%Z = (1, 2)%Z /\
  anchor_coordinates_input 16%Z (16, 32)%Z = [(8, 8); (8, 24)] /\
  nth_error (anchor_coordinates_input 16%Z (16, 32)%Z) (0 * 2 + 1) <>
  Some ((1 + 0.5) * 16, (0 + 0.5) * 16).
Proof.
  assert (Hsz : compute_network_output_feature_map_size (16, 32)%Z 16%Z = (1, 2)%Z).
  { rewrite feature_map_size_ceil_div by reflexivity. reflexivity. }
  assert (Hc : anchor_coordinates_input 16%Z (16, 32)%Z = [(8, 8); (8, 24)]).
  { rewrite anchor_coordinates_input_grid, Hsz. simpl.
    unfold cell_center; simpl. repeat f_equal; lra. }
  split; [exact Hsz|]. split; [exact Hc|].
  rewrite Hc. simpl. intros [= H1 H2]. lra.
Qed.












(** ** The reduction [max] with indices *)

Lemma max_scan_spec (row : list R) :
  forall (the_max : R) (the_index i : nat) (v : R) (j : nat),
    max_scan the_max the_index i row = (v, j) ->
    (v = the_max /\ j = the_index /\
     forall k x, nth_error row k = Some x -> x <= the_max) \/
    (exists k,
        nth_error row k = Some v /\ j = (i + k)%nat /\ the_max < v /\
        (forall k' x, (k' < k)%nat -> nth_error row k' = Some x -> x < v) /\
        (forall k' x, nth_error row k' = Some x -> x <= v)).
Proof.
  induction row as [|value row IH]; intros the_max the_index i v j; simpl.
  - intros [= <- <-]. left. repeat split. intros [|k] x; discriminate.
  - destruct (Rlt_dec the_max value) as [Hlt|Hge]; intros H; apply IH in H.
    + right. destruct H as [[-> [-> Hall]] | [k [Hk [-> [Hv [Hpre Hall]]]]]].
      * exists 0%nat. repeat split; simpl; auto; try lia.
        intros [|k'] x; simpl; intros Hx; [injection Hx as <-; lra|eauto].
      * exists (S k). repeat split; simpl; auto; try lia; try lra.
        -- intros [|k'] x Hk'; simpl; intros Hx;
             [injection Hx as <-; lra | apply (Hpre k'); [lia|exact Hx]].
        -- intros [|k'] x; simpl; intros Hx; [injection Hx as <-; lra|eauto].
    + destruct H as [[-> [-> Hall]] | [k [Hk [-> [Hv [Hpre Hall]]]]]].
      * left. repeat split.
        intros [|k] x; simpl; intros Hx; [injection Hx as <-; lra|eauto].
      * right. exists (S k). repeat split; simpl; auto; try lia.
        -- intros [|k'] x Hk'; simpl; intros Hx;
             [injection Hx as <-; lra | apply (Hpre k'); [lia|exact Hx]].
        -- intros [|k'] x; simpl; intros Hx; [injection Hx as <-; lra|eauto].
Qed.

Lemma row_max_first_argmax (row : list R) (v : R) (j : nat) :
  row_max row = Some (v, j) -> first_argmax row j v.
Proof.
  destruct row as [|value row]; simpl; [discriminate|].
  intros [= H]. apply max_scan_spec in H.
  destruct H as [[-> [-> Hall]] | [k [Hk [-> [Hv [Hpre Hall]]]]]].
  - repeat split; simpl; auto; try lia.
    intros [|k] x; simpl; intros Hx; [injection Hx as <-; lra|eauto].
  - repeat split; simpl; auto.
    + intros [|k'] x; simpl; intros Hx; [injection Hx as <-; lra|eauto].
    + intros [|k'] x Hk'; simpl; intros Hx;
        [injection Hx as <-; lra | apply (Hpre k'); [lia|exact Hx]].
Qed.

Lemma row_max_nonempty (row : list R) :
  row <> [] -> exists v j, row_max row = Some (v, j).
Proof.
  destruct row as [|value row]; [congruence|]. intros _. simpl.
  destruct (max_scan value 0 1 row) as [v j]. eauto.
Qed.

Lemma first_argmax_unique (row : list R) (j j' : nat) (v v' : R) :
  first_argmax row j v -> first_argmax row j' v' -> j = j' /\ v = v'.
Proof.
  intros [Hj [Hall Hpre]] [Hj' [Hall' Hpre']].
  assert (Hv : v = v').
  { apply Rle_antisym; [apply (Hall' j) | apply (Hall j')]; assumption. }
  subst v'. split; [|reflexivity].
  destruct (Nat.lt_trichotomy j j') as [H | [H | H]]; [|exact H|].
  - pose proof (Hpre' j v H Hj). lra.
  - pose proof (Hpre j' v H Hj'). lra.
Qed.

Lemma first_argmax_bound (row : list R) (j : nat) (v : R) :
  first_argmax row j v -> (j < length row)%nat.
Proof.
  intros [Hj _]. apply nth_error_Some. rewrite Hj. discriminate.
Qed.

Lemma mapM_total {A B : Type} (f : A -> option B) (l : list A) :
  (forall x, In x l -> exists y, f x = Some y) -> exists r, mapM f l = Some r.
Proof.
  induction l as [|x l IH]; intros H; simpl; [eauto|].
  destruct (H x (or_introl eq_refl)) as [y ->].
  destruct IH as [r ->]; [intros z Hz; apply H; right; exact Hz|].
  simpl. eauto.
Qed.

Lemma split_fst_map {A B : Type} (l : list (A * B)) : fst (split l) = map fst l.
Proof.
  induction l as [|[a b] l IH]; simpl; [reflexivity|].
  destruct (split l); simpl in *. rewrite IH. reflexivity.
Qed.

Lemma split_snd_map {A B : Type} (l : list (A * B)) : snd (split l) = map snd l.
Proof.
  induction l as [|[a b] l IH]; simpl; [reflexivity|].
  destruct (split l); simpl in *. rewrite IH. reflexivity.
Qed.

Lemma nth_error_combine {A B : Type} (l1 : list A) (l2 : list B) (i : nat) (x : A) (y : B) :
  nth_error l1 i = Some x -> nth_error l2 i = Some y ->
  nth_error (combine l1 l2) i = Some (x, y).
Proof.
  revert l2 i; induction l1 as [|a l1 IH]; intros [|b l2] [|i]; simpl;
    try discriminate.
  - intros [= <-] [= <-]; reflexivity.
  - apply IH.
Qed.

(** [ious.max(1)] on the matrix of [encode]. *)
Lemma tensor_max_dim1_ious (g1 g2 : list bbox) :
  g2 <> [] ->
  exists best_ious best_ids,
    tensor_max_dim1 (length g2) (compute_bboxes_ious g1 g2) =
      Some (best_ious, best_ids) /\
    length best_ious = length g1 /\ length best_ids = length g1 /\
    forall i a, nth_error g1 i = Some a ->
      exists v j,
        nth_error best_ious i = Some v /\ nth_error best_ids i = Some j /\
        first_argmax (map (iou_entry a) g2) j v.
Proof.
  intros Hne. unfold tensor_max_dim1.
  destruct (length g2) as [|m] eqn:Hm0;
    [destruct g2; [congruence|discriminate]|].
  destruct (mapM_total row_max (compute_bboxes_ious g1 g2)) as [per_row Hm].
  { intros row Hin. unfold compute_bboxes_ious in Hin.
    apply in_map_iff in Hin as [a [<- _]].
    destruct (row_max_nonempty (map (iou_entry a) g2)) as [v [j H]].
    - destruct g2; [congruence|discriminate].
    - eauto. }
  rewrite Hm. simpl.
  exists (fst (split per_row)), (snd (split per_row)).
  split; [destruct (split per_row); reflexivity|].
  pose proof (mapM_length _ _ _ Hm) as Hlen.
  rewrite (proj1 (compute_bboxes_ious_shape g1 g2)) in Hlen.
  rewrite split_fst_map, split_snd_map, !length_map.
  split; [exact Hlen|]. split; [exact Hlen|].
  intros i a Ha.
  destruct (mapM_nth_error _ _ _ Hm i _ (compute_bboxes_ious_row g1 g2 i a Ha))
    as [[v j] [Hrm Hnth]].
  exists v, j. rewrite !nth_error_map, Hnth. simpl.
  split; [reflexivity|]. split; [reflexivity|].
  apply row_max_first_argmax; exact Hrm.
Qed.

(** ** The encoder, by value *)

Lemma index_select_total {A : Type} (t : list A) (ids : list nat) :
  (forall j, In j ids -> (j < length t)%nat) ->
  exists r, index_select t ids = Some r.
Proof.
  intros H. apply mapM_total. intros j Hj.
  destruct (nth_error t j) eqn:E; [eauto|].
  apply nth_error_None in E. specialize (H j Hj). lia.
Qed.

Lemma masked_fill_nth (t : list Z) (mask : list bool) (v : Z) (i : nat) (x : Z) (m : bool) :
  nth_error t i = Some x -> nth_error mask i = Some m ->
  nth_error (masked_fill t mask v) i = Some (if m then v else x).
Proof.
  intros Ht Hm. unfold masked_fill.
  rewrite nth_error_map, (nth_error_combine _ _ _ _ _ Ht Hm). reflexivity.
Qed.

Lemma masked_fill_length (t : list Z) (mask : list bool) (v : Z) :
  length mask = length t -> length (masked_fill t mask v) = length t.
Proof.
  intros H. unfold masked_fill. rewrite length_map, length_combine. lia.
Qed.

Lemma encode_spec (anchors gt : list bbox) (labels : list Z) :
  gt <> [] -> length labels = length gt ->
  exists deltas tl,
    encode anchors gt labels = Some (deltas, tl) /\
    length deltas = length anchors /\ length tl = length anchors /\
    forall i a, nth_error anchors i = Some a ->
      exists v j g gl,
        first_argmax (ious_row a gt) j v /\
        nth_error gt j = Some g /\ nth_error labels j = Some gl /\
        nth_error deltas i = Some (delta_of g a) /\
        nth_error tl i = Some (label_of v gl).
Proof.
  intros Hne Hlab.
  set (a_xyxy := convert_bbox_center_xywh_tensor_to_xyxy anchors).
  set (g_xyxy := convert_bbox_center_xywh_tensor_to_xyxy gt).
  assert (Hg : g_xyxy <> []) by (destruct gt; [congruence|discriminate]).
  assert (Hglen : length g_xyxy = length gt) by apply length_map.
  assert (Halen : length a_xyxy = length anchors) by apply length_map.
  destruct (tensor_max_dim1_ious a_xyxy g_xyxy Hg)
    as [best_ious [best_ids [Hmax [Hl1 [Hl2 Hnth]]]]].
  assert (Hrow : forall i a, nth_error anchors i = Some a ->
            exists v j, nth_error best_ious i = Some v /\
                        nth_error best_ids i = Some j /\
                        first_argmax (ious_row a gt) j v).
  { intros i a Ha. apply (Hnth i (xyxy_of a)).
    unfold a_xyxy, convert_bbox_center_xywh_tensor_to_xyxy.
    rewrite nth_error_map, Ha. reflexivity. }
  assert (Hids : forall j, In j best_ids -> (j < length gt)%nat).
  { intros j Hj. apply In_nth_error in Hj as [i Hi].
    assert (Hi' : (i < length anchors)%nat).
    { rewrite <- Halen, <- Hl2. apply nth_error_Some. rewrite Hi. discriminate. }
    destruct (nth_error anchors i) as [a|] eqn:Ha;
      [|apply nth_error_None in Ha; lia].
    destruct (Hrow i a Ha) as [v [j' [_ [Hj' Hfa]]]].
    rewrite Hi in Hj'. injection Hj' as <-.
    apply first_argmax_bound in Hfa. unfold ious_row in Hfa.
    rewrite length_map in Hfa. fold g_xyxy in Hfa. lia. }
  destruct (index_select_total gt best_ids Hids) as [g_best Hgb].
  destruct (index_select_total labels best_ids) as [l_best Hlb].
  { intros j Hj. rewrite Hlab. auto. }
  pose proof (mapM_length _ _ _ Hgb) as Hgl.
  pose proof (mapM_length _ _ _ Hlb) as Hll.
  unfold encode. fold a_xyxy g_xyxy. rewrite Hmax. simpl.
  rewrite Hgb. simpl. rewrite Hlb. simpl.
  eexists; eexists. split; [reflexivity|]. split; [|split].
  - unfold cat_dim1, delta_xy_rows, delta_wh_rows.
    rewrite !length_map, !length_combine, !length_map, !length_combine. lia.
  - rewrite !masked_fill_length; rewrite ?length_map; try lia.
    rewrite masked_fill_length; rewrite !length_map; lia.
  - intros i a Ha.
    destruct (Hrow i a Ha) as [v [j [Hv [Hj Hfa]]]].
    destruct (mapM_nth_error _ _ _ Hgb i j Hj) as [g [Hg1 Hg2]].
    destruct (mapM_nth_error _ _ _ Hlb i j Hj) as [gl [Hgl1 Hgl2]].
    exists v, j, g, gl. repeat (split; [assumption|]). split.
    + unfold cat_dim1, delta_xy_rows, delta_wh_rows.
      rewrite nth_error_map.
      erewrite nth_error_combine;
        [| rewrite nth_error_map; erewrite nth_error_combine; eauto; reflexivity
         | rewrite nth_error_map; erewrite nth_error_combine; eauto; reflexivity ].
      reflexivity.
    + erewrite masked_fill_nth;
        [| erewrite masked_fill_nth;
           [reflexivity
           | rewrite nth_error_map, Hgl2; reflexivity
           | rewrite nth_error_map, Hv; reflexivity ]
         | rewrite nth_error_map, Hv; reflexivity ].
      unfold label_of. simpl. reflexivity.
Qed.

Lemma ious_row_nth (anchors gt : list bbox) (i : nat) (a : bbox) :
  nth_error anchors i = Some a ->
  nth_error (compute_bboxes_ious (convert_bbox_center_xywh_tensor_to_xyxy anchors)
                                 (convert_bbox_center_xywh_tensor_to_xyxy gt)) i =
  Some (ious_row a gt).
Proof.
  intros Ha. apply (compute_bboxes_ious_row _ _ i (xyxy_of a)).
  unfold convert_bbox_center_xywh_tensor_to_xyxy.
  rewrite nth_error_map, Ha. reflexivity.
Qed.

Lemma label_of_cases (v : R) (gl : Z) :
  (0.4 < v < 0.5 -> label_of v gl = (-1)%Z) /\
  (v <= 0.4 -> label_of v gl = 0%Z) /\
  (0.5 <= v -> label_of v gl = (gl + 1)%Z).
Proof.
  unfold label_of, ltb.
  destruct (Rlt_dec 0.4 v), (Rlt_dec v 0.5); simpl;
    repeat split; intros; try reflexivity; lra.
Qed.

(** C1. For [M >= 1] ground-truth boxes (and as many labels) [encode]
    returns, and the label of every anchor is -1 when its best overlap lies
    strictly between 0.4 and 0.5, otherwise 0 when the best overlap is
    below 0.5, otherwise the label of the matched ground-truth box plus
    one; so 0 at 0.3, -1 at 0.45 and the matched label plus one at 0.6. *)
Theorem encode_target_labels :
  forall (anchors gt : list bbox) (labels : list Z),
    gt <> [] -> length labels = length gt ->
    exists deltas target_labels,
      encode anchors gt labels = Some (deltas, target_labels) /\
      length target_labels = length anchors /\
      forall i a, nth_error anchors i = Some a ->
        exists row best_iou best_j gl l,
          nth_error (compute_bboxes_ious
                       (convert_bbox_center_xywh_tensor_to_xyxy anchors)
                       (convert_bbox_center_xywh_tensor_to_xyxy gt)) i = Some row /\
          first_argmax row best_j best_iou /\
          nth_error labels best_j = Some gl /\
          nth_error target_labels i = Some l /\
          (0.4 < best_iou < 0.5 -> l = (-1)%Z) /\
          (~ 0.4 < best_iou < 0.5 -> best_iou < 0.5 -> l = 0%Z) /\
          (~ 0.4 < best_iou < 0.5 -> ~ best_iou < 0.5 -> l = (gl + 1)%Z) /\
          (best_iou = 0.3 -> l = 0%Z) /\
          (best_iou = 0.45 -> l = (-1)%Z) /\
          (best_iou = 0.6 -> l = (gl + 1)%Z).
Proof.
  intros anchors gt labels Hne Hlab.
  destruct (encode_spec anchors gt labels Hne Hlab)
    as [deltas [tl [He [_ [Hl Hnth]]]]].
  exists deltas, tl. split; [exact He|]. split; [exact Hl|].
  intros i a Ha. destruct (Hnth i a Ha) as [v [j [g [gl [Hfa [_ [Hgl [_ Ht]]]]]]]].
  exists (ious_row a gt), v, j, gl, (label_of v gl).
  destruct (label_of_cases v gl) as [H1 [H2 H3]].
  split; [apply ious_row_nth; exact Ha|].
  split; [exact Hfa|]. split; [exact Hgl|]. split; [exact Ht|].
  repeat split; intros.
  - apply H1; assumption.
  - apply H2; lra.
  - apply H3; lra.
  - apply H2; lra.
  - apply H1; lra.
  - apply H3; lra.
Qed.

Lemma encode_target_labels_witness :
  exists deltas target_labels,
    encode [mkbox 5 5 10 10] [mkbox 5 5 10 6] [7%Z] = Some (deltas, target_labels) /\
    length target_labels = 1%nat.
Proof.
  destruct (encode_target_labels [mkbox 5 5 10 10] [mkbox 5 5 10 6] [7%Z])
    as [deltas [tl [He [Hl _]]]]; [discriminate | reflexivity |].
  exists deltas, tl. split; [exact He | exact Hl].
Defined.

(** C2. For every anchor [a], matched to the ground-truth box [g] at its
    best index, the regression target is
    [((g_cx - a_cx) / a_w, (g_cy - a_cy) / a_h, ln (g_w / a_w), ln (g_h / a_h))];
    when the anchor equals its matched box (with positive width and
    height) the target is (0, 0, 0, 0). *)
Theorem encode_target_deltas :
  forall (anchors gt : list bbox) (labels : list Z),
    gt <> [] -> length labels = length gt ->
    exists target_deltas tl,
      encode anchors gt labels = Some (target_deltas, tl) /\
      length target_deltas = length anchors /\
      forall i a, nth_error anchors i = Some a ->
        exists row best_iou best_j g,
          nth_error (compute_bboxes_ious
                       (convert_bbox_center_xywh_tensor_to_xyxy anchors)
                       (convert_bbox_center_xywh_tensor_to_xyxy gt)) i = Some row /\
          first_argmax row best_j best_iou /\
          nth_error gt best_j = Some g /\
          nth_error target_deltas i =
          Some (mkbox ((c0 g - c0 a) / c2 a) ((c1 g - c1 a) / c3 a)
                      (ln (c2 g / c2 a)) (ln (c3 g / c3 a))) /\
          (g = a -> 0 < c2 a -> 0 < c3 a ->
           nth_error target_deltas i = Some (mkbox 0 0 0 0)).
Proof.
  intros anchors gt labels Hne Hlab.
  destruct (encode_spec anchors gt labels Hne Hlab)
    as [deltas [tl [He [Hl [_ Hnth]]]]].
  exists deltas, tl. split; [exact He|]. split; [exact Hl|].
  intros i a Ha. destruct (Hnth i a Ha) as [v [j [g [gl [Hfa [Hg [_ [Hd _]]]]]]]].
  exists (ious_row a gt), v, j, g.
  split; [apply ious_row_nth; exact Ha|].
  split; [exact Hfa|]. split; [exact Hg|]. split; [exact Hd|].
  intros -> Hw Hh. rewrite Hd. unfold delta_of. f_equal.
  apply bbox_ext; simpl.
  - field; lra.
  - field; lra.
  - replace (c2 a / c2 a) with 1 by (field; lra). apply ln_1.
  - replace (c3 a / c3 a) with 1 by (field; lra). apply ln_1.
Qed.

Lemma encode_target_deltas_witness :
  exists target_deltas tl,
    encode [mkbox 5 5 10 10] [mkbox 5 5 10 10] [7%Z] = Some (target_deltas, tl) /\
    nth_error target_deltas 0 = Some (mkbox 0 0 0 0).
Proof.
  destruct (encode_target_deltas [mkbox 5 5 10 10] [mkbox 5 5 10 10] [7%Z])
    as [deltas [tl [He [_ Hnth]]]]; [discriminate | reflexivity |].
  exists deltas, tl. split; [exact He|].
  destruct (Hnth 0%nat (mkbox 5 5 10 10) eq_refl)
    as [row [v [j [g [_ [Hfa [Hg [_ Hid]]]]]]]].
  destruct j as [|j]; [|destruct j; discriminate]. injection Hg as <-.
  apply Hid; simpl; [reflexivity | lra | lra].
Defined.

(** C6. In every call of [encode] with [M >= 1] boxes and [M] labels, the
    index matched to anchor [i] is the smallest index of its row of
    overlaps at which the maximum of the row occurs, and the matched
    overlap is that maximum: these are the values [ious.max(1)] returns
    inside the call, and the delta and the label that [encode] returns for
    the anchor are computed from the box and the label at that index. *)
Theorem encode_matches_first_maximum :
  forall (anchors gt : list bbox) (labels : list Z),
    gt <> [] -> length labels = length gt ->
    let ious := compute_bboxes_ious
                  (convert_bbox_center_xywh_tensor_to_xyxy anchors)
                  (convert_bbox_center_xywh_tensor_to_xyxy gt) in
    exists deltas target_labels best_iou best_j,
      encode anchors gt labels = Some (deltas, target_labels) /\
      tensor_max_dim1 (length gt) ious = Some (best_iou, best_j) /\
      forall i a, nth_error anchors i = Some a ->
        exists row v j g gl,
          nth_error ious i = Some row /\
          nth_error best_iou i = Some v /\
          nth_error best_j i = Some j /\
          (j < length gt)%nat /\
          nth_error row j = Some v /\
          (forall k x, nth_error row k = Some x -> x <= v) /\
          (forall k x, nth_error row k = Some x -> x = v -> (j <= k)%nat) /\
          nth_error gt j = Some g /\
          nth_error labels j = Some gl /\
          nth_error deltas i =
            Some (mkbox ((c0 g - c0 a) / c2 a) ((c1 g - c1 a) / c3 a)
                        (ln (c2 g / c2 a)) (ln (c3 g / c3 a))) /\
          nth_error target_labels i =
            Some (if ltb 0.4 v && ltb v 0.5 then (-1)%Z
                  else if ltb v 0.5 then 0%Z else (gl + 1)%Z).
Proof.
  intros anchors gt labels Hne Hlab ious.
  assert (Hg : convert_bbox_center_xywh_tensor_to_xyxy gt <> [])
    by (destruct gt; [congruence|discriminate]).
  assert (Hlen : length (convert_bbox_center_xywh_tensor_to_xyxy gt) = length gt)
    by apply length_map.
  destruct (tensor_max_dim1_ious
              (convert_bbox_center_xywh_tensor_to_xyxy anchors)
              (convert_bbox_center_xywh_tensor_to_xyxy gt) Hg)
    as [best_ious [best_ids [Hmax [_ [_ Hbest]]]]].
  rewrite Hlen in Hmax.
  destruct (encode_spec anchors gt labels Hne Hlab)
    as [deltas [tl [He [_ [_ Hnth]]]]].
  exists deltas, tl, best_ious, best_ids.
  split; [exact He|]. split; [exact Hmax|].
  intros i a Ha.
  destruct (Hbest i (xyxy_of a)) as [v [j [Hv [Hj Hfa]]]].
  { unfold convert_bbox_center_xywh_tensor_to_xyxy.
    rewrite nth_error_map, Ha. reflexivity. }
  destruct (Hnth i a Ha) as [v' [j' [g [gl [Hfa' [Hg' [Hgl [Hd Ht]]]]]]]].
  destruct (first_argmax_unique _ _ _ _ _ Hfa Hfa') as [<- <-].
  exists (ious_row a gt), v, j, g, gl.
  split; [apply ious_row_nth; exact Ha|].
  split; [exact Hv|]. split; [exact Hj|].
  pose proof (first_argmax_bound _ _ _ Hfa) as Hb.
  rewrite length_map, Hlen in Hb.
  destruct Hfa as [Hrow [Hall Hpre]].
  split; [exact Hb|]. split; [exact Hrow|]. split; [exact Hall|].
  split.
  { intros k x Hk ->.
    destruct (Nat.le_gt_cases j k) as [H|H]; [exact H|].
    pose proof (Hpre k v H Hk). lra. }
  split; [exact Hg'|]. split; [exact Hgl|].
  split; [exact Hd | exact Ht].
Qed.

Lemma encode_matches_first_maximum_witness :
  exists deltas target_labels best_iou best_j,
    encode [mkbox 5 5 10 10] [mkbox 5 5 10 6; mkbox 5 5 10 6] [3%Z; 7%Z] =
      Some (deltas, target_labels) /\
    tensor_max_dim1 2
      (compute_bboxes_ious
         (convert_bbox_center_xywh_tensor_to_xyxy [mkbox 5 5 10 10])
         (convert_bbox_center_xywh_tensor_to_xyxy
            [mkbox 5 5 10 6; mkbox 5 5 10 6])) = Some (best_iou, best_j) /\
    nth_error best_j 0 = Some 0%nat.
Proof.
  destruct (encode_matches_first_maximum [mkbox 5 5 10 10]
              [mkbox 5 5 10 6; mkbox 5 5 10 6] [3%Z; 7%Z])
    as [deltas [tl [best_iou [best_j [He [Hmax Hnth]]]]]];
    [discriminate | reflexivity |].
  exists deltas, tl, best_iou, best_j.
  split; [exact He|]. split; [exact Hmax|].
  destruct (Hnth 0%nat (mkbox 5 5 10 10) eq_refl)
    as [row [v [j [g [gl [Hrow [_ [Hj [_ [Hjv [_ [Hfirst _]]]]]]]]]]]].
  rewrite Hj. f_equal.
  injection Hrow as <-.
  destruct j as [|[|j]]; [reflexivity| |destruct j; discriminate].
  simpl in Hjv. injection Hjv as <-.
  specialize (Hfirst 0%nat _ eq_refl eq_refl). lia.
Defined.

(** ** The thresholds on synthetic boxes *)

(** A ground-truth box of full width and height [h] centered in a 10 x 10
    anchor overlaps it with ratio [h / 10]. *)
Lemma iou_centered_strip (h : R) :
  0 < h <= 10 ->
  iou_entry (xyxy_of (mkbox 5 5 10 10)) (xyxy_of (mkbox 5 5 10 h)) = h / 10.
Proof.
  intros Hh. unfold iou_entry, xyxy_of, clamp_min; simpl.
  unfold Rmax, Rmin.
  repeat match goal with
         | |- context [Rle_dec ?x ?y] => destruct (Rle_dec x y)
         | |- context [Rlt_dec ?x ?y] => destruct (Rlt_dec x y)
         end; try lra; try (field; lra);
    assert (H10 : h = 10) by lra; rewrite H10; field; lra.
Qed.

Lemma encode_single (h : R) (gl : Z) :
  0 < h <= 10 ->
  exists deltas,
    encode [mkbox 5 5 10 10] [mkbox 5 5 10 h] [gl] =
    Some (deltas, [label_of (h / 10) gl]).
Proof.
  intros Hh.
  destruct (encode_spec [mkbox 5 5 10 10] [mkbox 5 5 10 h] [gl])
    as [deltas [tl [He [_ [Hl Hnth]]]]]; [discriminate | reflexivity |].
  exists deltas. rewrite He. do 2 f_equal.
  destruct (Hnth 0%nat _ eq_refl) as [v [j [g [gl' [Hfa [Hg [Hgl [_ Ht]]]]]]]].
  destruct j as [|j]; [|destruct j; discriminate].
  injection Hgl as <-.
  destruct Hfa as [Hv _].
  change (Some (iou_entry (xyxy_of (mkbox 5 5 10 10)) (xyxy_of (mkbox 5 5 10 h)))
          = Some v) in Hv.
  rewrite (iou_centered_strip h Hh) in Hv. injection Hv as <-.
  destruct tl as [|l [|l' tl]]; try discriminate.
  simpl in Ht. injection Ht as ->. reflexivity.
Qed.

(** Overlap 0.3 gives background, 0.45 is ignored, 0.6 is foreground. *)
Example encode_thresholds (gl : Z) :
  (exists d, encode [mkbox 5 5 10 10] [mkbox 5 5 10 3] [gl] = Some (d, [0%Z])) /\
  (exists d, encode [mkbox 5 5 10 10] [mkbox 5 5 10 4.5] [gl] = Some (d, [(-1)%Z])) /\
  (exists d, encode [mkbox 5 5 10 10] [mkbox 5 5 10 6] [gl] = Some (d, [(gl + 1)%Z])).
Proof.
  split; [|split].
  - destruct (encode_single 3 gl) as [d Hd]; [lra|]. exists d. rewrite Hd.
    rewrite (proj1 (proj2 (label_of_cases (3 / 10) gl))) by lra. reflexivity.
  - destruct (encode_single 4.5 gl) as [d Hd]; [lra|]. exists d. rewrite Hd.
    rewrite (proj1 (label_of_cases (4.5 / 10) gl)) by lra. reflexivity.
  - destruct (encode_single 6 gl) as [d Hd]; [lra|]. exists d. rewrite Hd.
    rewrite (proj2 (proj2 (label_of_cases (6 / 10) gl))) by lra. reflexivity.
Qed.

Lemma compute_bboxes_ious_entry_witness :
  exists row,
    nth_error (compute_bboxes_ious [mkbox 0 0 10 10] [mkbox 20 20 30 30; mkbox 0 2 10 8]) 0
      = Some row /\
    nth_error row 0 = Some 0.
Proof.
  destruct (compute_bboxes_ious_entry
              [mkbox 0 0 10 10] [mkbox 20 20 30 30; mkbox 0 2 10 8]
              0%nat 0%nat (mkbox 0 0 10 10) (mkbox 20 20 30 30) eq_refl eq_refl)
    as [row [Hrow [Hentry Hzero]]].
  exists row. split; [exact Hrow|].
  rewrite Hzero in Hentry.
  - rewrite Hentry. f_equal. simpl. lra.
  - left. simpl. unfold Rmin, Rmax.
    destruct (Rle_dec 10 30), (Rle_dec 0 20); lra.
Defined.

(** ** Padding *)

Lemma expand_difference_max (d : Z) : (d * Z.b2z (0 <? d) = Z.max 0 d)%Z.
Proof. destruct (Z.ltb_spec 0 d); simpl; lia. Qed.

Lemma no_border_no_padding (px py : Z) :
  (0 <= px)%Z -> (0 <= py)%Z ->
  negb (px / 2 =? 0)%Z || negb (py / 2 =? 0)%Z ||
  negb (px - px / 2 =? 0)%Z || negb (py - py / 2 =? 0)%Z = false ->
  px = 0%Z /\ py = 0%Z.
Proof.
  intros Hx Hy H.
  repeat (apply orb_false_iff in H as [H ?]).
  repeat match goal with
         | H : negb _ = false |- _ =>
             apply negb_false_iff in H; apply Z.eqb_eq in H
         end.
  lia.
Qed.

Lemma half_split (p : Z) :
  (0 <= p)%Z -> (0 <= p / 2 <= p - p / 2)%Z /\ (p - p / 2 <= p / 2 + 1)%Z.
Proof.
  intros Hp. pose proof (Z.div_mod p 2 ltac:(lia)).
  pose proof (Z.mod_pos_bound p 2 ltac:(lia)). lia.
Qed.

(** The padded image of [pad_to_size_with_bounding_boxes], with the
    names of the statement for the paddings. *)
Lemma padded_image (input_img : image) (target : Z * Z) (bboxes : list bbox)
    (fill_label : Z) :
  let pad_x := Z.max 0 (fst target - fst (size input_img)) in
  let pad_y := Z.max 0 (snd target - snd (size input_img)) in
  fst (pad_to_size_with_bounding_boxes input_img target bboxes fill_label) =
  if (negb (pad_x / 2 =? 0) || negb (pad_y / 2 =? 0) ||
      negb (pad_x - pad_x / 2 =? 0) || negb (pad_y - pad_y / 2 =? 0))%Z
  then ImageOps_expand input_img
         (pad_x / 2, pad_y / 2, pad_x - pad_x / 2, pad_y - pad_y / 2)%Z fill_label
  else input_img.
Proof.
  intros pad_x pad_y. unfold pad_to_size_with_bounding_boxes. cbn [fst snd].
  rewrite !expand_difference_max. reflexivity.
Qed.

(** C9. [pad_to_size_with_bounding_boxes] pads by [max 0 (target - input)]
    on each axis, [floor] of the half before (left, top) and the rest
    after (right, bottom), so that no axis shrinks: every pixel of the
    input is found in the output moved by the leading paddings, every
    other pixel of the output is the fill value, every box center moves
    by the same leading paddings, x by the left one and y by the top one,
    and widths and heights stay. *)
Theorem pad_to_size_with_bounding_boxes_pads :
  forall (input_img : image) (target : Z * Z) (bboxes : list bbox) (fill_label : Z),
    let pad_x := Z.max 0 (fst target - fst (size input_img)) in
    let pad_y := Z.max 0 (snd target - snd (size input_img)) in
    let lead_x := (pad_x / 2)%Z in
    let lead_y := (pad_y / 2)%Z in
    let out := pad_to_size_with_bounding_boxes input_img target bboxes fill_label in
    size (fst out) =
      (lead_x + fst (size input_img) + (pad_x - lead_x),
       lead_y + snd (size input_img) + (pad_y - lead_y))%Z /\
    fst (size (fst out)) = Z.max (fst (size input_img)) (fst target) /\
    snd (size (fst out)) = Z.max (snd (size input_img)) (snd target) /\
    (0 <= lead_x <= pad_x - lead_x)%Z /\ (0 <= lead_y <= pad_y - lead_y)%Z /\
    (pad_x - lead_x <= lead_x + 1)%Z /\ (pad_y - lead_y <= lead_y + 1)%Z /\
    (forall x y,
        (0 <= x < fst (size input_img))%Z -> (0 <= y < snd (size input_img))%Z ->
        getpixel (fst out) (x + lead_x) (y + lead_y) = getpixel input_img x y) /\
    (forall x y,
        (0 <= x < fst (size (fst out)))%Z -> (0 <= y < snd (size (fst out)))%Z ->
        ~ ((lead_x <= x < lead_x + fst (size input_img))%Z /\
           (lead_y <= y < lead_y + snd (size input_img))%Z) ->
        getpixel (fst out) x y = fill_label) /\
    snd out =
      map (fun b => mkbox (c0 b + IZR lead_x) (c1 b + IZR lead_y) (c2 b) (c3 b))
          bboxes.
Proof.
  intros input_img target bboxes fill_label pad_x pad_y lead_x lead_y out.
  assert (Hpx : (0 <= pad_x)%Z) by apply Z.le_max_l.
  assert (Hpy : (0 <= pad_y)%Z) by apply Z.le_max_l.
  destruct (half_split pad_x Hpx) as [Hlx Hlx'].
  destruct (half_split pad_y Hpy) as [Hly Hly'].
  fold lead_x in Hlx, Hlx'. fold lead_y in Hly, Hly'.
  pose proof (padded_image input_img target bboxes fill_label) as Himg.
  cbv zeta in Himg. fold pad_x pad_y lead_x lead_y out in Himg.
  destruct (negb (lead_x =? 0)%Z || negb (lead_y =? 0)%Z ||
            negb (pad_x - lead_x =? 0)%Z || negb (pad_y - lead_y =? 0)%Z) eqn:Hany.
  - (* an image is made and the input pasted into it *)
    rewrite Himg. unfold ImageOps_expand, paste, Image_new. cbn [size getpixel fst snd].
    split; [reflexivity|]. split; [unfold pad_x; lia|]. split; [unfold pad_y; lia|].
    split; [exact Hlx|]. split; [exact Hly|].
    split; [exact Hlx'|]. split; [exact Hly'|].
    split; [|split].
    + intros x y Hx Hy.
      replace ((lead_x <=? x + lead_x) && (x + lead_x <? lead_x + fst (size input_img)) &&
               (lead_y <=? y + lead_y) && (y + lead_y <? lead_y + snd (size input_img)))%Z
        with true.
      * f_equal; lia.
      * symmetry. rewrite !andb_true_iff.
        repeat split; (apply Z.leb_le || apply Z.ltb_lt); lia.
    + intros x y _ _ Hout.
      destruct ((lead_x <=? x) && (x <? lead_x + fst (size input_img)) &&
                (lead_y <=? y) && (y <? lead_y + snd (size input_img)))%Z eqn:Hin;
        [|reflexivity].
      exfalso. apply Hout. rewrite !andb_true_iff in Hin.
      destruct Hin as [[[H1 H2] H3] H4].
      apply Z.leb_le in H1, H3. apply Z.ltb_lt in H2, H4. lia.
    + unfold out, pad_to_size_with_bounding_boxes. cbn [fst snd].
      rewrite !expand_difference_max. reflexivity.
  - (* nothing to pad: the input itself *)
    destruct (no_border_no_padding pad_x pad_y Hpx Hpy Hany) as [Ex Ey].
    assert (Elx : lead_x = 0%Z) by (unfold lead_x; rewrite Ex; reflexivity).
    assert (Ely : lead_y = 0%Z) by (unfold lead_y; rewrite Ey; reflexivity).
    rewrite Himg, Elx, Ely, Ex, Ey.
    split; [destruct input_img as [[w h] px]; cbn [size fst snd]; f_equal; lia|].
    split; [unfold pad_x in Ex; lia|]. split; [unfold pad_y in Ey; lia|].
    split; [lia|]. split; [lia|]. split; [lia|]. split; [lia|].
    split; [|split].
    + intros x y _ _. f_equal; lia.
    + intros x y Hx Hy Hout. exfalso. apply Hout. lia.
    + unfold out, pad_to_size_with_bounding_boxes. cbn [fst snd].
      rewrite !expand_difference_max. fold pad_x pad_y. rewrite Ex, Ey. reflexivity.
Qed.

(** ** The encoder over the store: framing *)

Lemma frame_ret {A : Type} (n : nat) (a : A) (Q : A -> Prop) :
  Q a -> frame n (Store.ret a) Q.
Proof. intros HQ s x s' _ [= <- <-]. auto. Qed.

Lemma frame_bind {A B : Type} (n : nat) (m : Store.M A) (f : A -> Store.M B)
    (Q : A -> Prop) (Q' : B -> Prop) :
  frame n m Q -> (forall x, Q x -> frame n (f x) Q') ->
  frame n (Store.bind m f) Q'.
Proof.
  intros Hm Hf s y s'' Hn. unfold Store.bind.
  destruct (m s) as [[x s']|] eqn:E; [|discriminate]. intros H.
  destruct (Hm s x s' Hn E) as [Hlen [Hold HQ]].
  destruct (Hf x HQ s' y s'' ltac:(lia) H) as [Hlen' [Hold' HQ']].
  split; [lia|]. split; [|exact HQ'].
  intros r Hr. rewrite Hold', Hold by exact Hr. reflexivity.
Qed.

Lemma frame_lift {A : Type} (n : nat) (o : option A) :
  frame n (Store.lift o) (fun _ => True).
Proof. intros s x s' _. unfold Store.lift. destruct o; intros [= <- <-]; auto. Qed.

Lemma frame_read (n : nat) (r : Store.ref) : frame n (Store.read r) (fun _ => True).
Proof.
  intros s x s' _. unfold Store.read.
  destruct (nth_error s r); intros [= <- <-]; auto.
Qed.

Lemma frame_read_float (n : nat) (r : Store.ref) :
  frame n (Store.read_float r) (fun _ => True).
Proof.
  unfold Store.read_float. eapply frame_bind; [apply frame_read|].
  intros [rows|values] _; [apply frame_ret; exact I | apply frame_lift].
Qed.

Lemma frame_read_long (n : nat) (r : Store.ref) :
  frame n (Store.read_long r) (fun _ => True).
Proof.
  unfold Store.read_long. eapply frame_bind; [apply frame_read|].
  intros [rows|values] _; [apply frame_lift | apply frame_ret; exact I].
Qed.

Lemma frame_new (n : nat) (t : Store.tensor) :
  frame n (Store.new t) (fun r => (n <= r)%nat).
Proof.
  intros s x s' Hn. unfold Store.new. intros [= <- <-].
  rewrite length_app; simpl. split; [lia|]. split; [|exact Hn].
  intros r Hr. apply nth_error_app1. lia.
Qed.

Lemma frame_write (n : nat) (r : Store.ref) (t : Store.tensor) :
  (n <= r)%nat -> frame n (Store.write r t) (fun _ => True).
Proof.
  intros Hr s x s' Hn. unfold Store.write.
  destruct (nth_error s r) as [old|] eqn:E; [|discriminate].
  intros [= _ <-].
  assert (Hlen : (r < length s)%nat) by (apply nth_error_Some; rewrite E; discriminate).
  split; [|split; [|exact I]].
  - change (match s with [] => [] | _ :: l => skipn r l end) with (skipn (S r) s).
    rewrite length_app, length_firstn.
    change (length (t :: skipn (S r) s)) with (S (length (skipn (S r) s))).
    rewrite length_skipn. lia.
  - intros q Hq. rewrite nth_error_app1 by (rewrite length_firstn; lia).
    rewrite nth_error_firstn.
    destruct (Nat.ltb_spec q r); [reflexivity|lia].
Qed.

Lemma frame_clone (n : nat) (r : Store.ref) :
  frame n (Store.clone r) (fun r' => (n <= r')%nat).
Proof.
  unfold Store.clone. eapply frame_bind; [apply frame_read|].
  intros t _. apply frame_new.
Qed.

Lemma frame_assign_column (n : nat) (dst : Store.ref) (k : nat) (values : list R) :
  (n <= dst)%nat -> frame n (Store.assign_column dst k values) (fun _ => True).
Proof.
  intros H. unfold Store.assign_column.
  eapply frame_bind; [apply frame_read_float|].
  intros rows _. apply frame_write; exact H.
Qed.

Lemma frame_assign_masked (n : nat) (dst : Store.ref) (mask : list bool) (v : Z) :
  (n <= dst)%nat -> frame n (Store.assign_masked dst mask v) (fun _ => True).
Proof.
  intros H. unfold Store.assign_masked.
  eapply frame_bind; [apply frame_read_long|].
  intros values _. apply frame_write; exact H.
Qed.

Create HintDb frame_rules.
#[local] Hint Resolve frame_read_float frame_read_long frame_lift frame_new
  frame_clone frame_assign_column frame_assign_masked : frame_rules.

Ltac frame_step :=
  eapply frame_bind; [solve [eauto with frame_rules] | intros ? ?].

Lemma frame_convert (n : nat) (src : Store.ref) :
  frame n (Store.convert_bbox_center_xywh_tensor_to_xyxy src)
        (fun r' => (n <= r')%nat).
Proof.
  unfold Store.convert_bbox_center_xywh_tensor_to_xyxy.
  repeat frame_step. apply frame_ret. assumption.
Qed.

Lemma frame_compute_bboxes_ious (n : nat) (g1 g2 : Store.ref) :
  frame n (Store.compute_bboxes_ious g1 g2) (fun _ => True).
Proof.
  unfold Store.compute_bboxes_ious. repeat frame_step. apply frame_ret. exact I.
Qed.

#[local] Hint Resolve frame_convert frame_compute_bboxes_ious : frame_rules.

Lemma frame_encode (n : nat) (anchors gt labels : Store.ref) :
  frame n (Store.encode anchors gt labels)
        (fun out => (n <= fst out)%nat /\ (n <= snd out)%nat).
Proof.
  unfold Store.encode.
  do 5 frame_step.
  match goal with x : (list R * list nat)%type |- _ => destruct x end.
  repeat frame_step. apply frame_ret. simpl. auto.
Qed.

(** ** The encoder over the store: what a run computes *)

Lemma read_at (s : Store.store) (r : Store.ref) (t : Store.tensor) :
  nth_error s r = Some t -> Store.read r s = Some (t, s).
Proof. intros H. unfold Store.read. rewrite H. reflexivity. Qed.

Lemma read_float_at (s : Store.store) (r : Store.ref) (rows : list bbox) :
  nth_error s r = Some (Store.FloatTensor rows) ->
  Store.read_float r s = Some (rows, s).
Proof.
  intros H. unfold Store.read_float, Store.bind.
  rewrite (read_at _ _ _ H). reflexivity.
Qed.

Lemma read_long_at (s : Store.store) (r : Store.ref) (values : list Z) :
  nth_error s r = Some (Store.LongTensor values) ->
  Store.read_long r s = Some (values, s).
Proof.
  intros H. unfold Store.read_long, Store.bind.
  rewrite (read_at _ _ _ H). reflexivity.
Qed.

Lemma nth_error_last_cell {A : Type} (s : list A) (x : A) :
  nth_error (s ++ [x]) (length s) = Some x.
Proof. rewrite nth_error_app2, Nat.sub_diag by lia. reflexivity. Qed.

Lemma nth_error_old_cell {A : Type} (s ext : list A) (r : nat) (x : A) :
  nth_error s r = Some x -> nth_error (s ++ ext) r = Some x.
Proof.
  intros H. rewrite nth_error_app1; [exact H|].
  apply nth_error_Some. rewrite H. discriminate.
Qed.

Lemma write_last_cell (s : Store.store) (x t : Store.tensor) :
  Store.write (length s) t (s ++ [x]) = Some (tt, s ++ [t]).
Proof.
  unfold Store.write. rewrite nth_error_last_cell.
  rewrite firstn_app, Nat.sub_diag, firstn_all, firstn_O, app_nil_r.
  rewrite skipn_all2 by (rewrite length_app; simpl; lia). reflexivity.
Qed.

Lemma assign_column_last_cell (s : Store.store) (rows : list bbox) (k : nat)
    (values : list R) :
  Store.assign_column (length s) k values (s ++ [Store.FloatTensor rows]) =
  Some (tt, s ++ [Store.FloatTensor
                    (map (fun p => Store.set_column k (fst p) (snd p))
                         (combine rows values))]).
Proof.
  unfold Store.assign_column, Store.bind.
  rewrite (read_float_at _ _ rows) by apply nth_error_last_cell.
  apply write_last_cell.
Qed.

Lemma assign_masked_last_cell (s : Store.store) (values : list Z)
    (mask : list bool) (v : Z) :
  Store.assign_masked (length s) mask v (s ++ [Store.LongTensor values]) =
  Some (tt, s ++ [Store.LongTensor (masked_fill values mask v)]).
Proof.
  unfold Store.assign_masked, Store.bind.
  rewrite (read_long_at _ _ values) by apply nth_error_last_cell.
  apply write_last_cell.
Qed.

Lemma combine_map_r {A B C : Type} (f : A -> C) (g : A -> B) (l : list A) :
  combine (map f l) (map g l) = map (fun x => (f x, g x)) l.
Proof. induction l as [|x l IH]; simpl; [|rewrite IH]; reflexivity. Qed.

Lemma assign_column_map (k : nat) (f : bbox -> bbox) (g : bbox -> R) (l : list bbox) :
  map (fun p => Store.set_column k (fst p) (snd p)) (combine (map f l) (map g l)) =
  map (fun b => Store.set_column k (f b) (g b)) l.
Proof. rewrite combine_map_r, map_map. reflexivity. Qed.

Lemma convert_run (s : Store.store) (src : Store.ref) (rows : list bbox) :
  nth_error s src = Some (Store.FloatTensor rows) ->
  Store.convert_bbox_center_xywh_tensor_to_xyxy src s =
  Some (length s,
        s ++ [Store.FloatTensor (convert_bbox_center_xywh_tensor_to_xyxy rows)]).
Proof.
  intros H. unfold Store.convert_bbox_center_xywh_tensor_to_xyxy.
  unfold Store.bind at 1. unfold Store.clone, Store.bind at 1.
  rewrite (read_at _ _ _ H). unfold Store.new.
  rewrite <- (map_id rows) at 1.
  do 4 (unfold Store.bind at 1;
        rewrite (read_float_at _ _ rows) by (apply nth_error_old_cell; exact H);
        unfold Store.bind at 1;
        rewrite assign_column_last_cell, assign_column_map).
  unfold Store.ret. do 3 f_equal.
Qed.

Lemma encode_run (s : Store.store) (a g l : Store.ref)
    (anchors gt : list bbox) (labels : list Z) :
  nth_error s a = Some (Store.FloatTensor anchors) ->
  nth_error s g = Some (Store.FloatTensor gt) ->
  nth_error s l = Some (Store.LongTensor labels) ->
  Store.encode a g l s =
  match encode anchors gt labels with
  | Some (deltas, target_labels) =>
      Some ((length s + 2, length s + 3)%nat,
            s ++ [Store.FloatTensor (convert_bbox_center_xywh_tensor_to_xyxy anchors);
                  Store.FloatTensor (convert_bbox_center_xywh_tensor_to_xyxy gt);
                  Store.FloatTensor deltas;
                  Store.LongTensor target_labels])
  | None => None
  end.
Proof.
  intros Ha Hg Hl. unfold Store.encode.
  set (A' := Store.FloatTensor (convert_bbox_center_xywh_tensor_to_xyxy anchors)).
  set (G' := Store.FloatTensor (convert_bbox_center_xywh_tensor_to_xyxy gt)).
  unfold Store.bind at 1. rewrite (convert_run s a anchors Ha). fold A'.
  unfold Store.bind at 1.
  rewrite (convert_run (s ++ [A']) g gt) by (apply nth_error_old_cell; exact Hg).
  fold G'.
  assert (Ha2 : nth_error ((s ++ [A']) ++ [G']) a = Some (Store.FloatTensor anchors))
    by (do 2 apply nth_error_old_cell; exact Ha).
  assert (Hg2 : nth_error ((s ++ [A']) ++ [G']) g = Some (Store.FloatTensor gt))
    by (do 2 apply nth_error_old_cell; exact Hg).
  unfold Store.bind at 1. unfold Store.compute_bboxes_ious, Store.bind at 1.
  rewrite (read_float_at _ (length s) (convert_bbox_center_xywh_tensor_to_xyxy anchors))
    by (apply nth_error_old_cell, nth_error_last_cell).
  unfold Store.bind at 1.
  rewrite (read_float_at _ (length (s ++ [A'])) (convert_bbox_center_xywh_tensor_to_xyxy gt))
    by apply nth_error_last_cell.
  unfold Store.ret at 1.
  unfold Store.bind at 1.
  rewrite (read_float_at _ (length (s ++ [A'])) (convert_bbox_center_xywh_tensor_to_xyxy gt))
    by apply nth_error_last_cell.
  unfold encode.
  destruct (tensor_max_dim1 _ _) as [[best_ious best_ids]|];
    [|reflexivity].
  unfold Store.bind at 1, Store.lift at 1. cbn [obind].
  unfold Store.bind at 1. rewrite (read_float_at _ g gt Hg2).
  destruct (index_select gt best_ids) as [g_best|]; [|reflexivity].
  unfold Store.bind at 1, Store.lift at 1. cbn [obind].
  do 2 (unfold Store.bind at 1; rewrite (read_float_at _ a anchors Ha2)).
  unfold Store.bind at 1, Store.new at 1.
  assert (Hl3 : forall x, nth_error ((((s ++ [A']) ++ [G']) ++ [x])) l =
                          Some (Store.LongTensor labels))
    by (intros x; do 3 apply nth_error_old_cell; exact Hl).
  unfold Store.bind at 1. rewrite (read_long_at _ l labels (Hl3 _)).
  destruct (index_select labels best_ids) as [l_best|]; [|reflexivity].
  unfold Store.bind at 1, Store.lift at 1. cbn [obind].
  unfold Store.bind at 1, Store.new at 1.
  unfold Store.bind at 1. rewrite assign_masked_last_cell.
  unfold Store.bind at 1. rewrite assign_masked_last_cell.
  unfold Store.ret. rewrite !length_app. simpl length.
  rewrite <- !app_assoc. simpl.
  do 2 f_equal. f_equal; lia.
Qed.

(** Every successful run keeps all objects that existed before it. *)
Lemma encode_frame (s s' : Store.store) (a g l : Store.ref) (out : Store.ref * Store.ref) :
  Store.encode a g l s = Some (out, s') ->
  Store.unchanged s s' /\ (length s <= fst out)%nat /\ (length s <= snd out)%nat.
Proof.
  intros H.
  destruct (frame_encode (length s) a g l s out s' (le_n _) H) as [_ [Hold [Hd Ht]]].
  split; [exact Hold|]. split; assumption.
Qed.

(** C8. A call of [encode] on the stored anchor tensor, the ground-truth
    boxes and the labels returns two new objects and leaves every object
    of the store, among them the anchor tensor and both inputs, as it
    was. *)
Theorem encode_leaves_store_unchanged :
  forall (s : Store.store) (a g l : Store.ref)
         (anchors gt : list bbox) (labels : list Z),
    nth_error s a = Some (Store.FloatTensor anchors) ->
    nth_error s g = Some (Store.FloatTensor gt) ->
    nth_error s l = Some (Store.LongTensor labels) ->
    gt <> [] -> length labels = length gt ->
    exists d t s' deltas target_labels,
      Store.encode a g l s = Some ((d, t), s') /\
      Store.unchanged s s' /\
      nth_error s' a = Some (Store.FloatTensor anchors) /\
      nth_error s' g = Some (Store.FloatTensor gt) /\
      nth_error s' l = Some (Store.LongTensor labels) /\
      (length s <= d)%nat /\ (length s <= t)%nat /\ d <> t /\
      nth_error s' d = Some (Store.FloatTensor deltas) /\
      nth_error s' t = Some (Store.LongTensor target_labels) /\
      encode anchors gt labels = Some (deltas, target_labels).
Proof.
  intros s a g l anchors gt labels Ha Hg Hl Hne Hlen.
  destruct (encode_spec anchors gt labels Hne Hlen) as [deltas [tl [He _]]].
  pose proof (encode_run s a g l anchors gt labels Ha Hg Hl) as Hrun.
  rewrite He in Hrun.
  destruct (encode_frame _ _ _ _ _ _ Hrun) as [Hold _].
  eexists; eexists; eexists. exists deltas, tl.
  split; [exact Hrun|]. split; [exact Hold|].
  split; [apply nth_error_old_cell; exact Ha|].
  split; [apply nth_error_old_cell; exact Hg|].
  split; [apply nth_error_old_cell; exact Hl|].
  split; [lia|]. split; [lia|]. split; [lia|].
  split; [|split; [|exact He]].
  - rewrite nth_error_app2 by lia.
    replace (length s + 2 - length s)%nat with 2%nat by lia. reflexivity.
  - rewrite nth_error_app2 by lia.
    replace (length s + 3 - length s)%nat with 3%nat by lia. reflexivity.
Qed.

Lemma encode_leaves_store_unchanged_witness :
  let s := [Store.FloatTensor [mkbox 5 5 10 10];
            Store.FloatTensor [mkbox 5 5 10 6];
            Store.LongTensor [7%Z]] in
  exists d t s',
    Store.encode 0%nat 1%nat 2%nat s = Some ((d, t), s') /\
    Store.unchanged s s'.
Proof.
  intros s.
  destruct (encode_leaves_store_unchanged s 0%nat 1%nat 2%nat
              [mkbox 5 5 10 10] [mkbox 5 5 10 6] [7%Z]
              eq_refl eq_refl eq_refl)
    as [d [t [s' [deltas [tl [Hrun [Hold _]]]]]]];
    [discriminate | reflexivity |].
  exists d, t, s'. split; [exact Hrun | exact Hold].
Defined.

Lemma precompute_anchor_boxes_layout_witness :
  exists sizes anchors,
    anchor_boxes_sizes_list default_anchor_areas default_aspect_ratios = Some sizes /\
    precompute_anchor_boxes default_anchor_areas default_aspect_ratios
      default_stride default_input_image_size = Some anchors /\
    length sizes = 9%nat.
Proof.
  pose proof (anchor_boxes_sizes_list_above _ _ default_sizes_above) as Hs.
  destruct (proj1 precompute_anchor_boxes_layout
              default_anchor_areas default_aspect_ratios
              default_stride default_input_image_size _ Hs)
    as [anchors [Hp [HK _]]].
  eexists; exists anchors. split; [exact Hs|]. split; [exact Hp|]. exact HK.
Defined.

(** * Further properties of the geometry primitives *)

Lemma iou_entry_sym (a b : bbox) : iou_entry a b = iou_entry b a.
Proof.
  unfold iou_entry.
  rewrite (Rmax_comm (c0 a)), (Rmax_comm (c1 a)),
          (Rmin_comm (c2 a)), (Rmin_comm (c3 a)).
  f_equal. ring.
Qed.

(** X1. The overlap matrix of two groups is the transpose of the matrix
    of the groups taken in the other order: entry (i, j) of the one is
    entry (j, i) of the other, and both are out of range together. *)
Theorem compute_bboxes_ious_transpose :
  forall (g1 g2 : list bbox) (i j : nat),
    entry (compute_bboxes_ious g1 g2) i j = entry (compute_bboxes_ious g2 g1) j i.
Proof.
  intros g1 g2 i j. unfold entry, compute_bboxes_ious.
  rewrite !nth_error_map.
  destruct (nth_error g1 i) as [a|] eqn:Ha, (nth_error g2 j) as [b|] eqn:Hb;
    simpl; rewrite ?nth_error_map, ?Ha, ?Hb; simpl; try reflexivity.
  f_equal. apply iou_entry_sym.
Qed.

Lemma inter_bounds (a b : bbox) :
  valid_xyxy a -> valid_xyxy b ->
  let inter := Rmax 0 (Rmin (c2 a) (c2 b) - Rmax (c0 a) (c0 b)) *
               Rmax 0 (Rmin (c3 a) (c3 b) - Rmax (c1 a) (c1 b)) in
  0 <= inter /\
  inter <= (c2 a - c0 a) * (c3 a - c1 a) /\
  inter <= (c2 b - c0 b) * (c3 b - c1 b).
Proof.
  intros [Hax Hay] [Hbx Hby] inter.
  set (dx := Rmax 0 (Rmin (c2 a) (c2 b) - Rmax (c0 a) (c0 b))) in *.
  set (dy := Rmax 0 (Rmin (c3 a) (c3 b) - Rmax (c1 a) (c1 b))) in *.
  assert (Hdx : 0 <= dx /\ dx <= c2 a - c0 a /\ dx <= c2 b - c0 b).
  { unfold dx, Rmax, Rmin.
    repeat match goal with
           | |- context [Rle_dec ?x ?y] => destruct (Rle_dec x y)
           end; lra. }
  assert (Hdy : 0 <= dy /\ dy <= c3 a - c1 a /\ dy <= c3 b - c1 b).
  { unfold dy, Rmax, Rmin.
    repeat match goal with
           | |- context [Rle_dec ?x ?y] => destruct (Rle_dec x y)
           end; lra. }
  unfold inter. destruct Hdx as [? [? ?]], Hdy as [? [? ?]].
  split; [apply Rmult_le_pos; assumption|].
  split; apply Rmult_le_compat; assumption.
Qed.

Lemma iou_entry_formula (a b : bbox) :
  iou_entry a b =
  (Rmax 0 (Rmin (c2 a) (c2 b) - Rmax (c0 a) (c0 b)) *
   Rmax 0 (Rmin (c3 a) (c3 b) - Rmax (c1 a) (c1 b))) /
  ((c2 a - c0 a) * (c3 a - c1 a) + (c2 b - c0 b) * (c3 b - c1 b) -
   Rmax 0 (Rmin (c2 a) (c2 b) - Rmax (c0 a) (c0 b)) *
   Rmax 0 (Rmin (c3 a) (c3 b) - Rmax (c1 a) (c1 b))).
Proof. unfold iou_entry. rewrite !clamp_min_0. reflexivity. Qed.

Lemma iou_entry_range (a b : bbox) :
  valid_xyxy a -> valid_xyxy b ->
  0 < (c2 a - c0 a) * (c3 a - c1 a) ->
  0 <= iou_entry a b <= 1.
Proof.
  intros Ha Hb Hpos. rewrite iou_entry_formula.
  destruct (inter_bounds a b Ha Hb) as [H0 [H1 H2]].
  set (inter := Rmax 0 _ * Rmax 0 _) in *.
  set (area_a := (c2 a - c0 a) * (c3 a - c1 a)) in *.
  set (area_b := (c2 b - c0 b) * (c3 b - c1 b)) in *.
  assert (Hu : 0 < area_a + area_b - inter) by lra.
  split.
  - apply Rmult_le_pos; [exact H0|]. left. apply Rinv_0_lt_compat. exact Hu.
  - apply (Rmult_le_reg_r (area_a + area_b - inter)); [exact Hu|].
    unfold Rdiv. rewrite Rmult_assoc, Rinv_l by lra. lra.
Qed.

(** X2. For boxes in xyxy format with ordered corners, the first group
    holding boxes of positive area, every entry of the overlap matrix lies
    between 0 and 1. *)
Theorem compute_bboxes_ious_range :
  forall (g1 g2 : list bbox) (i j : nat) (v : R),
    Forall (fun a => valid_xyxy a /\ 0 < (c2 a - c0 a) * (c3 a - c1 a)) g1 ->
    Forall valid_xyxy g2 ->
    entry (compute_bboxes_ious g1 g2) i j = Some v ->
    0 <= v <= 1.
Proof.
  intros g1 g2 i j v H1 H2. unfold entry, compute_bboxes_ious.
  rewrite nth_error_map.
  destruct (nth_error g1 i) as [a|] eqn:Ha; simpl; [|discriminate].
  rewrite nth_error_map.
  destruct (nth_error g2 j) as [b|] eqn:Hb; simpl; [|discriminate].
  intros [= <-].
  rewrite Forall_forall in H1, H2.
  destruct (H1 a (nth_error_In _ _ Ha)) as [Hva Hpos].
  apply iou_entry_range; auto. apply H2. apply (nth_error_In _ _ Hb).
Qed.

Lemma compute_bboxes_ious_range_witness :
  0 <= 1 / 4 <= 1.
Proof.
  apply (compute_bboxes_ious_range [mkbox 0 0 2 2] [mkbox 1 0 3 2; mkbox 0 0 1 1]
           0%nat 1%nat (1 / 4)).
  - repeat constructor; simpl; lra.
  - repeat constructor; simpl; lra.
  - unfold entry, compute_bboxes_ious; simpl. f_equal.
    unfold iou_entry, clamp_min, Rmax, Rmin; simpl.
    repeat match goal with
           | |- context [Rle_dec ?x ?y] => destruct (Rle_dec x y)
           | |- context [Rlt_dec ?x ?y] => destruct (Rlt_dec x y)
           end; try lra; field.
Defined.

(** X3. A box of positive width and height overlaps itself with ratio 1:
    the diagonal entry of the overlap matrix of a group with itself. *)
Theorem compute_bboxes_ious_self :
  forall (g : list bbox) (i : nat) (b : bbox),
    nth_error g i = Some b ->
    c0 b < c2 b -> c1 b < c3 b ->
    entry (compute_bboxes_ious g g) i i = Some 1.
Proof.
  intros g i b Hb Hx Hy. unfold entry, compute_bboxes_ious.
  rewrite nth_error_map, Hb. simpl. rewrite nth_error_map, Hb. simpl. f_equal.
  rewrite iou_entry_formula.
  rewrite (Rmax_left (c0 b)), (Rmax_left (c1 b)),
          (Rmin_left (c2 b)), (Rmin_left (c3 b)) by lra.
  rewrite !Rmax_right by lra.
  assert (0 < (c2 b - c0 b) * (c3 b - c1 b)) by (apply Rmult_lt_0_compat; lra).
  field. lra.
Qed.

Lemma compute_bboxes_ious_self_witness :
  entry (compute_bboxes_ious [mkbox 0 0 2 3] [mkbox 0 0 2 3]) 0 0 = Some 1.
Proof.
  apply (compute_bboxes_ious_self [mkbox 0 0 2 3] 0%nat (mkbox 0 0 2 3) eq_refl);
    simpl; lra.
Defined.

(** X4. Going from topleft_xywh to xyxy directly is the same as going
    through center_xywh. *)
Theorem topleft_to_xyxy_through_center :
  forall t : list bbox,
    convert_bbox_center_xywh_tensor_to_xyxy
      (convert_bbox_topleft_xywh_tensor_to_center_xywh t) =
    convert_bbox_topleft_xywh_tensor_to_xyxy t.
Proof.
  intros t.
  unfold convert_bbox_center_xywh_tensor_to_xyxy,
         convert_bbox_topleft_xywh_tensor_to_center_xywh,
         convert_bbox_topleft_xywh_tensor_to_xyxy.
  rewrite map_map. apply map_ext. intros b. apply bbox_ext; simpl; lra.
Qed.

(** X5. Conversion from center_xywh to xyxy keeps the number of boxes and
    gives, row by row, corners whose differences are the width and the
    height and whose midpoint is the center; with non-negative sizes the
    corners are in order. *)
Theorem center_to_xyxy_extent :
  forall (t : list bbox) (i : nat) (b : bbox),
    nth_error t i = Some b ->
    exists q,
      nth_error (convert_bbox_center_xywh_tensor_to_xyxy t) i = Some q /\
      c2 q - c0 q = c2 b /\ c3 q - c1 q = c3 b /\
      (c0 q + c2 q) / 2 = c0 b /\ (c1 q + c3 q) / 2 = c1 b /\
      (0 <= c2 b -> 0 <= c3 b -> valid_xyxy q).
Proof.
  intros t i b Hb. exists (xyxy_of b).
  unfold convert_bbox_center_xywh_tensor_to_xyxy.
  rewrite nth_error_map, Hb. split; [reflexivity|].
  unfold xyxy_of, valid_xyxy; simpl. repeat split; lra.
Qed.

Lemma center_to_xyxy_extent_witness :
  exists q,
    nth_error (convert_bbox_center_xywh_tensor_to_xyxy [mkbox 5 5 10 6]) 0 = Some q /\
    c2 q - c0 q = 10.
Proof.
  destruct (center_to_xyxy_extent [mkbox 5 5 10 6] 0%nat (mkbox 5 5 10 6) eq_refl)
    as [q [Hq [Hw _]]].
  exists q. split; [exact Hq | exact Hw].
Defined.

(** * Further properties of the anchor generator *)

Lemma ceil_div_bounds (a s : Z) :
  (0 < s)%Z -> ((ceil_div a s - 1) * s < a <= ceil_div a s * s)%Z.
Proof.
  intros Hs. unfold ceil_div.
  pose proof (Z.mul_div_le (- a) s Hs).
  pose proof (Z.mul_succ_div_gt (- a) s Hs).
  nia.
Qed.

(** X6. For a positive stride the grid just covers the input: on each
    axis [cells * stride] reaches the size and [(cells - 1) * stride] does
    not; when the stride divides the size the number of cells is the
    quotient. *)
Theorem feature_map_covers_input :
  forall (input_img_size : Z * Z) (stride : Z),
    (0 < stride)%Z ->
    let cells := compute_network_output_feature_map_size input_img_size stride in
    ((fst cells - 1) * stride < fst input_img_size <= fst cells * stride)%Z /\
    ((snd cells - 1) * stride < snd input_img_size <= snd cells * stride)%Z /\
    ((stride | fst input_img_size)%Z -> fst cells = (fst input_img_size / stride)%Z) /\
    ((stride | snd input_img_size)%Z -> snd cells = (snd input_img_size / stride)%Z).
Proof.
  intros input_img_size stride Hs cells. unfold cells.
  rewrite feature_map_size_ceil_div by exact Hs. cbn [fst snd].
  pose proof (ceil_div_bounds (fst input_img_size) stride Hs) as H1.
  pose proof (ceil_div_bounds (snd input_img_size) stride Hs) as H2.
  split; [exact H1|]. split; [exact H2|].
  split; intros [k Hk].
  - rewrite Hk in *. rewrite Z.div_mul by lia. nia.
  - rewrite Hk in *. rewrite Z.div_mul by lia. nia.
Qed.

Lemma feature_map_covers_input_witness :
  let cells := compute_network_output_feature_map_size (600, 608)%Z 16%Z in
  ((fst cells - 1) * 16 < 600 <= fst cells * 16)%Z /\
  snd cells = (608 / 16)%Z.
Proof.
  intros cells.
  destruct (feature_map_covers_input (600, 608)%Z 16%Z eq_refl)
    as [H1 [_ [_ H4]]].
  split; [exact H1|]. apply H4. exists 38%Z. reflexivity.
Defined.

Lemma anchor_size_product (area ratio w h : R) :
  anchor_size area ratio = Some (w, h) ->
  0 < w /\ 0 < ratio * area /\ w * w = ratio * area /\ w * h = area /\ w / h = ratio.
Proof.
  intros H. destruct (anchor_size_Some _ _ _ H) as [E Habove].
  unfold size_of in E. injection E as -> ->.
  pose proof binary64_half_least_pos as Hb.
  assert (Hra : 0 < ratio * area) by lra.
  pose proof (sqrt_lt_R0 _ Hra) as Hw.
  pose proof (sqrt_sqrt _ (Rlt_le _ _ Hra)) as Hsq.
  set (w := sqrt (ratio * area)) in *.
  assert (Harea : area <> 0) by (intros ->; lra).
  repeat split; try assumption.
  - field. lra.
  - unfold Rdiv. rewrite Rinv_mult, Rinv_inv.
    replace (w * (/ area * w)) with (w * w * / area) by ring.
    rewrite Hsq. field. exact Harea.
Qed.

(** X7. Whenever the size loop does not raise, the size computed for the
    pair (area, ratio) has positive width, [w * h = area] and
    [w / h = ratio], as the comment in the loop intends. *)
Theorem anchor_sizes_area_and_ratio :
  forall (areas ratios : list R) (sizes : list (R * R))
         (a b : nat) (area ratio : R),
    anchor_boxes_sizes_list areas ratios = Some sizes ->
    nth_error areas a = Some area -> nth_error ratios b = Some ratio ->
    exists w h,
      nth_error sizes (a * length ratios + b) = Some (w, h) /\
      0 < w /\ w * h = area /\ w / h = ratio.
Proof.
  intros areas ratios sizes a b area ratio Hs Ha Hb.
  unfold anchor_boxes_sizes_list in Hs.
  destruct (mapM _ areas) as [per_area|] eqn:Hm; simpl in Hs; [|discriminate].
  injection Hs as <-.
  destruct (mapM_nth_error _ _ _ Hm a area Ha) as [row [Hrow Hnth]].
  destruct (mapM_nth_error _ _ _ Hrow b ratio Hb) as [[w h] [Hsz Hnth']].
  exists w, h.
  destruct (anchor_size_product _ _ _ _ Hsz) as [Hw [_ [_ [Hwh Hr]]]].
  split; [|auto].
  rewrite <- (map_id per_area), <- flat_map_concat_map.
  rewrite (nth_error_flat_map_uniform _ (length ratios) _) with (x := row).
  - exact Hnth'.
  - intros y Hy. apply In_nth_error in Hy as [n Hn].
    assert (Hlt : (n < length areas)%nat).
    { rewrite <- (mapM_length _ _ _ Hm). apply nth_error_Some. rewrite Hn. discriminate. }
    destruct (nth_error areas n) as [area'|] eqn:E; [|apply nth_error_None in E; lia].
    destruct (mapM_nth_error _ _ _ Hm n area' E) as [row' [Hrow' Hn']].
    rewrite Hn in Hn'. injection Hn' as ->.
    apply (mapM_length _ _ _ Hrow').
  - exact Hnth.
  - apply nth_error_Some. rewrite Hb. discriminate.
Qed.

Lemma anchor_sizes_area_and_ratio_witness :
  exists sizes w h,
    anchor_boxes_sizes_list default_anchor_areas default_aspect_ratios = Some sizes /\
    nth_error sizes (1 * 3 + 2) = Some (w, h) /\
    w * h = 256 * 256 /\ w / h = 2 / 1.
Proof.
  pose proof (anchor_boxes_sizes_list_above _ _ default_sizes_above) as Hs.
  destruct (anchor_sizes_area_and_ratio default_anchor_areas default_aspect_ratios
              _ 1%nat 2%nat (256 * 256) (2 / 1) Hs eq_refl eq_refl)
    as [w [h [Hn [_ [Hwh Hr]]]]].
  eexists; exists w, h. split; [exact Hs|]. split; [exact Hn|]. split; assumption.
Defined.

Lemma mapM_None {A B : Type} (f : A -> option B) (l : list A) :
  mapM f l = None <-> exists x, In x l /\ f x = None.
Proof.
  induction l as [|x l IH]; simpl.
  - split; [discriminate | intros [x [[] _]]].
  - destruct (f x) as [y|] eqn:Hy; simpl.
    + destruct (mapM f l) as [ys|]; simpl.
      * split; [discriminate|].
        intros [z [[<- | Hz] Hn]]; [congruence|].
        assert (Some ys = None) by (apply (proj2 IH); eauto). discriminate.
      * split; [|reflexivity]. intros _.
        destruct (proj1 IH eq_refl) as [z [Hz Hn]]. eauto.
    + split; [|reflexivity]. intros _. eauto.
Qed.

Lemma anchor_size_None (area ratio : R) :
  anchor_size area ratio = None <-> ratio * area <= binary64_half_least.
Proof.
  pose proof binary64_half_least_pos as Hb.
  unfold anchor_size.
  destruct (Rlt_dec (ratio * area) (- binary64_half_least)) as [Hlt|Hge].
  - split; [lra | reflexivity].
  - destruct (Rle_dec (ratio * area) binary64_half_least) as [Hle|Hgt].
    + split; [intros _; exact Hle | reflexivity].
    + split; [discriminate | intros Hle; contradiction].
Qed.

(** X8. The precomputation raises exactly when for some configured pair
    the product [ratio * area] is at most [2 ^ -1075], that is, when the
    product as a binary64 number is negative (which stops [math.sqrt]) or
    has rounded to zero (which makes the width zero and stops the
    division by it); strictly positive areas and ratios whose product
    underflows raise as well.  Grid and stride play no role. *)
Theorem precompute_anchor_boxes_raises_iff :
  forall (areas ratios : list R) (stride : Z) (input_size : Z * Z),
    precompute_anchor_boxes areas ratios stride input_size = None <->
    exists area ratio,
      In area areas /\ In ratio ratios /\ ratio * area <= / 2 ^ 1075.
Proof.
  intros areas ratios stride input_size.
  change (/ 2 ^ 1075) with binary64_half_least.
  unfold precompute_anchor_boxes, get_anchor_boxes_sizes, anchor_boxes_sizes_list.
  destruct (mapM _ areas) as [per_area|] eqn:Hm; simpl.
  - split; [discriminate|].
    intros [area [ratio [Ha [Hr Hle]]]]. exfalso.
    assert (Hnone : mapM (fun current_anchor_area =>
                      mapM (fun current_aspect_ratio =>
                              anchor_size current_anchor_area current_aspect_ratio)
                           ratios) areas = None).
    { apply mapM_None. exists area. split; [exact Ha|].
      apply mapM_None. exists ratio. split; [exact Hr|].
      apply anchor_size_None. exact Hle. }
    congruence.
  - split; [|reflexivity]. intros _.
    apply mapM_None in Hm as [area [Ha Hrow]].
    apply mapM_None in Hrow as [ratio [Hr Hsz]].
    exists area, ratio. repeat split; try assumption.
    apply anchor_size_None. exact Hsz.
Qed.

Lemma In_range (n z : Z) : In z (range n) -> (0 <= z < n)%Z.
Proof.
  unfold range. intros H. apply in_map_iff in H as [k [<- Hk]].
  apply in_seq in Hk. lia.
Qed.

(** X9. For a positive stride every stored center is the middle of a
    stride-wide cell that begins at a non-negative multiple of the stride
    inside the input: with [(u, v)] the center,
    [0 <= u - stride / 2 < size[0]] and [0 <= v - stride / 2 < size[1]]. *)
Theorem anchor_cells_begin_inside_input :
  forall (stride : Z) (input_size : Z * Z),
    (0 < stride)%Z ->
    Forall (fun p =>
              0 <= fst p - IZR stride / 2 < IZR (fst input_size) /\
              0 <= snd p - IZR stride / 2 < IZR (snd input_size) /\
              exists r c : Z,
                fst p - IZR stride / 2 = IZR (r * stride) /\
                snd p - IZR stride / 2 = IZR (c * stride))
           (anchor_coordinates_input stride input_size).
Proof.
  intros stride input_size Hs. apply Forall_forall. intros p Hp.
  rewrite anchor_coordinates_input_grid in Hp.
  destruct (feature_map_covers_input input_size stride Hs) as [H1 [H2 _]].
  apply in_flat_map in Hp as [r [Hr Hp]].
  apply in_map_iff in Hp as [c [<- Hc]].
  apply In_range in Hr. apply In_range in Hc.
  unfold cell_center; cbn [fst snd].
  assert (Hsr : 0 < IZR stride) by (apply IZR_lt; exact Hs).
  assert (Er : (IZR r + 0.5) * IZR stride - IZR stride / 2 = IZR (r * stride))
    by (rewrite mult_IZR; lra).
  assert (Ec : (IZR c + 0.5) * IZR stride - IZR stride / 2 = IZR (c * stride))
    by (rewrite mult_IZR; lra).
  rewrite Er, Ec.
  split; [|split; [|exists r, c; split; reflexivity]].
  - split; [apply IZR_le; nia | apply IZR_lt; nia].
  - split; [apply IZR_le; nia | apply IZR_lt; nia].
Qed.

Lemma anchor_cells_begin_inside_input_witness :
  Forall (fun p =>
            0 <= fst p - IZR 16 / 2 < IZR 16 /\
            0 <= snd p - IZR 16 / 2 < IZR 32 /\
            exists r c : Z,
              fst p - IZR 16 / 2 = IZR (r * 16) /\
              snd p - IZR 16 / 2 = IZR (c * 16))
         (anchor_coordinates_input 16%Z (16, 32)%Z).
Proof.
  apply (anchor_cells_begin_inside_input 16%Z (16, 32)%Z). reflexivity.
Defined.

(** * Further properties of the encoder *)

Lemma mapM_map {A B C : Type} (f : B -> option C) (g : A -> B) (l : list A) :
  mapM f (map g l) = mapM (fun x => f (g x)) l.
Proof.
  induction l as [|x l IH]; simpl; [reflexivity|]. rewrite IH. reflexivity.
Qed.

Lemma split_maps {A B : Type} (l : list (A * B)) : split l = (map fst l, map snd l).
Proof.
  rewrite <- split_fst_map, <- split_snd_map. destruct (split l); reflexivity.
Qed.

Lemma ious_as_rows (anchors gt : list bbox) :
  compute_bboxes_ious (convert_bbox_center_xywh_tensor_to_xyxy anchors)
                      (convert_bbox_center_xywh_tensor_to_xyxy gt) =
  map (fun a => ious_row a gt) anchors.
Proof.
  unfold compute_bboxes_ious.
  change (convert_bbox_center_xywh_tensor_to_xyxy anchors) with (map xyxy_of anchors).
  rewrite map_map. reflexivity.
Qed.

(** Without ground truth the reduction has nothing to reduce over. *)
Lemma encode_no_ground_truth (anchors : list bbox) (labels : list Z) :
  encode anchors [] labels = None.
Proof. reflexivity. Qed.

(** [encode] with its stages written over the anchors themselves. *)
Lemma encode_stages (anchors gt : list bbox) (labels : list Z) :
  gt <> [] ->
  encode anchors gt labels =
  (per <- mapM (fun a => row_max (ious_row a gt)) anchors ;;
   gb <- mapM (fun p => nth_error gt (snd p)) per ;;
   ml <- mapM (fun p => nth_error labels (snd p)) per ;;
   Some (map (fun p => delta_of (fst p) (snd p)) (combine gb anchors),
         map (fun p => label_of (fst (fst p)) (snd p)) (combine per ml))).
Proof.
  intros Hne.
  unfold encode, tensor_max_dim1, index_select.
  replace (length (convert_bbox_center_xywh_tensor_to_xyxy gt)) with (length gt)
    by (symmetry; apply length_map).
  destruct (length gt) as [|m] eqn:Hm0;
    [destruct gt; [congruence|discriminate]|].
  rewrite ious_as_rows, mapM_map.
  destruct (mapM (fun a => row_max (ious_row a gt)) anchors) as [per|] eqn:Hper;
    simpl; [|reflexivity].
  rewrite split_maps, !mapM_map.
  destruct (mapM (fun p => nth_error gt (snd p)) per) as [gb|] eqn:Hgb;
    simpl; [|reflexivity].
  destruct (mapM (fun p => nth_error labels (snd p)) per) as [ml|] eqn:Hml;
    simpl; [|reflexivity].
  pose proof (mapM_length _ _ _ Hper) as L1.
  pose proof (mapM_length _ _ _ Hgb) as L2.
  pose proof (mapM_length _ _ _ Hml) as L3.
  f_equal. f_equal.
  - unfold cat_dim1, delta_xy_rows, delta_wh_rows.
    rewrite combine_map_r, map_map. reflexivity.
  - clear Hper Hgb Hml L1 L2 gb. unfold masked_fill. revert ml L3.
    induction per as [|[v j] per IH]; intros [|gl ml] L3; simpl in *;
      try discriminate; [reflexivity|].
    f_equal. apply IH. lia.
Qed.

Lemma encode_as_mapM (anchors gt : list bbox) (labels : list Z) :
  gt <> [] ->
  encode anchors gt labels =
  (rows <- mapM (encode_anchor gt labels) anchors ;; Some (split rows)).
Proof.
  intros Hne. rewrite (encode_stages _ _ _ Hne). clear Hne.
  induction anchors as [|a anchors IH]; [reflexivity|].
  cbn [mapM obind]. unfold encode_anchor at 1.
  destruct (row_max (ious_row a gt)) as [[v j]|]; cbn [obind fst snd];
    [|reflexivity].
  destruct (mapM (fun a0 => row_max (ious_row a0 gt)) anchors) as [per|];
    cbn [obind mapM fst snd] in *.
  - destruct (nth_error gt j) as [g|]; cbn [obind]; [|reflexivity].
    destruct (mapM (fun p => nth_error gt (snd p)) per) as [gb|];
      cbn [obind] in *.
    + destruct (nth_error labels j) as [gl|]; cbn [obind]; [|reflexivity].
      destruct (mapM (fun p => nth_error labels (snd p)) per) as [ml|];
        cbn [obind] in *.
      * destruct (mapM (encode_anchor gt labels) anchors) as [rows|];
          cbn [obind] in *; [|discriminate].
        injection IH as IH. simpl. rewrite <- IH. reflexivity.
      * destruct (mapM (encode_anchor gt labels) anchors) as [rows|];
          cbn [obind] in *; [discriminate|reflexivity].
    + destruct (mapM (encode_anchor gt labels) anchors) as [rows|];
        cbn [obind] in *; [discriminate|].
      destruct (nth_error labels j); reflexivity.
  - destruct (mapM (encode_anchor gt labels) anchors) as [rows|];
      cbn [obind] in *; [discriminate|].
    destruct (nth_error gt j); cbn [obind]; [|reflexivity].
    destruct (nth_error labels j); reflexivity.
Qed.

(** X10. Without ground-truth boxes [encode] raises, whatever the
    anchors are, also when there are none.  With at least one
    ground-truth box it treats every anchor on its own: its result is the
    list of the per-anchor results (best match in the anchor's row of
    overlaps, delta to the matched box, thresholded label), split into
    deltas and labels, and it raises exactly when the stages of some
    anchor raise. *)
Theorem encode_per_anchor :
  forall (anchors gt : list bbox) (labels : list Z),
    encode anchors gt labels =
    match gt with
    | [] => None
    | _ :: _ =>
        rows <- mapM (encode_anchor gt labels) anchors ;; Some (split rows)
    end.
Proof.
  intros anchors [|g gt] labels; [apply encode_no_ground_truth|].
  apply encode_as_mapM. discriminate.
Qed.

Lemma mapM_app {A B : Type} (f : A -> option B) (l1 l2 : list A) :
  mapM f (l1 ++ l2) =
  (r1 <- mapM f l1 ;; r2 <- mapM f l2 ;; Some (r1 ++ r2)).
Proof.
  induction l1 as [|x l1 IH]; simpl.
  - destruct (mapM f l2); reflexivity.
  - destruct (f x); simpl; [|reflexivity]. rewrite IH.
    destruct (mapM f l1); simpl; [|reflexivity].
    destruct (mapM f l2); reflexivity.
Qed.

(** X11. Encoding a concatenation of two anchor sets against the same
    ground truth is encoding each set and concatenating deltas with deltas
    and labels with labels; it raises when either part does. *)
Theorem encode_app :
  forall (anchors1 anchors2 gt : list bbox) (labels : list Z),
    encode (anchors1 ++ anchors2) gt labels =
    (r1 <- encode anchors1 gt labels ;;
     r2 <- encode anchors2 gt labels ;;
     Some (fst r1 ++ fst r2, snd r1 ++ snd r2)).
Proof.
  intros anchors1 anchors2 gt labels.
  destruct gt as [|g gt0] eqn:Egt; [reflexivity|].
  rewrite <- Egt. assert (Hne : gt <> []) by (rewrite Egt; discriminate).
  clear Egt. rewrite !(encode_as_mapM _ _ _ Hne), mapM_app.
  destruct (mapM (encode_anchor gt labels) anchors1) as [r1|]; simpl; [|reflexivity].
  destruct (mapM (encode_anchor gt labels) anchors2) as [r2|]; simpl; [|reflexivity].
  rewrite !split_maps. cbn [fst snd]. rewrite !map_app. reflexivity.
Qed.

Lemma Rmax_shift (x y d : R) : Rmax (x + d) (y + d) = Rmax x y + d.
Proof. unfold Rmax. destruct (Rle_dec (x + d) (y + d)), (Rle_dec x y); lra. Qed.

Lemma Rmin_shift (x y d : R) : Rmin (x + d) (y + d) = Rmin x y + d.
Proof. unfold Rmin. destruct (Rle_dec (x + d) (y + d)), (Rle_dec x y); lra. Qed.

Lemma iou_entry_shift (dx dy : R) (a b : bbox) :
  iou_entry (xyxy_of (shift dx dy a)) (xyxy_of (shift dx dy b)) =
  iou_entry (xyxy_of a) (xyxy_of b).
Proof.
  rewrite !iou_entry_formula. unfold xyxy_of, shift; cbn [c0 c1 c2 c3].
  replace (c0 a + dx - c2 a * 0.5) with (c0 a - c2 a * 0.5 + dx) by ring.
  replace (c0 b + dx - c2 b * 0.5) with (c0 b - c2 b * 0.5 + dx) by ring.
  replace (c1 a + dy - c3 a * 0.5) with (c1 a - c3 a * 0.5 + dy) by ring.
  replace (c1 b + dy - c3 b * 0.5) with (c1 b - c3 b * 0.5 + dy) by ring.
  replace (c0 a + dx + c2 a * 0.5) with (c0 a + c2 a * 0.5 + dx) by ring.
  replace (c0 b + dx + c2 b * 0.5) with (c0 b + c2 b * 0.5 + dx) by ring.
  replace (c1 a + dy + c3 a * 0.5) with (c1 a + c3 a * 0.5 + dy) by ring.
  replace (c1 b + dy + c3 b * 0.5) with (c1 b + c3 b * 0.5 + dy) by ring.
  rewrite !Rmax_shift, !Rmin_shift.
  set (mx := Rmax (c0 a - c2 a * 0.5) (c0 b - c2 b * 0.5)).
  set (my := Rmax (c1 a - c3 a * 0.5) (c1 b - c3 b * 0.5)).
  set (nx := Rmin (c0 a + c2 a * 0.5) (c0 b + c2 b * 0.5)).
  set (ny := Rmin (c1 a + c3 a * 0.5) (c1 b + c3 b * 0.5)).
  replace (nx + dx - (mx + dx)) with (nx - mx) by ring.
  replace (ny + dy - (my + dy)) with (ny - my) by ring.
  unfold Rdiv. f_equal. f_equal. ring.
Qed.

Lemma encode_anchor_shift (dx dy : R) (gt : list bbox) (labels : list Z) (a : bbox) :
  encode_anchor (map (shift dx dy) gt) labels (shift dx dy a) =
  encode_anchor gt labels a.
Proof.
  unfold encode_anchor.
  replace (ious_row (shift dx dy a) (map (shift dx dy) gt)) with (ious_row a gt).
  - destruct (row_max (ious_row a gt)) as [[v j]|]; cbn [obind fst snd];
      [|reflexivity].
    rewrite nth_error_map.
    destruct (nth_error gt j) as [g|]; cbn [obind option_map]; [|reflexivity].
    destruct (nth_error labels j) as [gl|]; cbn [obind]; [|reflexivity].
    do 2 f_equal. unfold delta_of, shift; cbn [c0 c1 c2 c3].
    f_equal; unfold Rdiv; f_equal; ring.
  - unfold ious_row.
    change (convert_bbox_center_xywh_tensor_to_xyxy (map (shift dx dy) gt))
      with (map xyxy_of (map (shift dx dy) gt)).
    change (convert_bbox_center_xywh_tensor_to_xyxy gt) with (map xyxy_of gt).
    rewrite !map_map. apply map_ext. intros b.
    symmetry. apply iou_entry_shift.
Qed.

(** X12. Moving all anchors and all ground-truth boxes by the same offset
    changes nothing in the result of [encode]: overlaps, matches, deltas
    and labels are those of the boxes in place. *)
Theorem encode_shift :
  forall (dx dy : R) (anchors gt : list bbox) (labels : list Z),
    encode (map (shift dx dy) anchors) (map (shift dx dy) gt) labels =
    encode anchors gt labels.
Proof.
  intros dx dy anchors gt labels.
  destruct gt as [|g gt0] eqn:Egt; [reflexivity|].
  rewrite <- Egt. assert (Hne : gt <> []) by (rewrite Egt; discriminate).
  assert (Hne' : map (shift dx dy) gt <> []) by (rewrite Egt; discriminate).
  clear Egt.
  rewrite (encode_as_mapM _ _ _ Hne), (encode_as_mapM _ _ _ Hne'), mapM_map.
  f_equal. clear. induction anchors as [|a anchors IH]; simpl; [reflexivity|].
  rewrite encode_anchor_shift, IH. reflexivity.
Qed.

(** ** An anchor that coincides with a ground-truth box *)

Lemma overlap_extent_bounds (a0 a1 b0 b1 : R) :
  a0 <= a1 -> b0 <= b1 ->
  0 <= Rmax 0 (Rmin a1 b1 - Rmax a0 b0) /\
  Rmax 0 (Rmin a1 b1 - Rmax a0 b0) <= a1 - a0 /\
  Rmax 0 (Rmin a1 b1 - Rmax a0 b0) <= b1 - b0.
Proof.
  intros Ha Hb. unfold Rmax, Rmin.
  repeat match goal with
         | |- context [Rle_dec ?x ?y] => destruct (Rle_dec x y)
         end; lra.
Qed.

Lemma overlap_extent_full (a0 a1 b0 b1 : R) :
  a0 < a1 ->
  Rmax 0 (Rmin a1 b1 - Rmax a0 b0) = a1 - a0 ->
  Rmax 0 (Rmin a1 b1 - Rmax a0 b0) = b1 - b0 ->
  a0 = b0 /\ a1 = b1.
Proof.
  intros Ha. unfold Rmax, Rmin.
  repeat match goal with
         | |- context [Rle_dec ?x ?y] => destruct (Rle_dec x y)
         end; intros; lra.
Qed.

Lemma product_full (x y w h : R) :
  0 <= x <= w -> 0 <= y <= h -> 0 < w -> 0 < h -> x * y = w * h ->
  x = w /\ y = h.
Proof.
  intros Hx Hy Hw Hh E.
  assert (Hxw : x = w).
  { destruct (Rle_lt_or_eq_dec x w (proj2 Hx)) as [Hlt|]; [|assumption].
    exfalso. assert (x * y <= x * h) by (apply Rmult_le_compat_l; lra).
    assert (x * h < w * h) by (apply Rmult_lt_compat_r; lra). lra. }
  split; [exact Hxw|]. subst x.
  apply (Rmult_eq_reg_l w); lra.
Qed.

Lemma iou_entry_one_equal (a b : bbox) :
  valid_xyxy a -> valid_xyxy b ->
  c0 a < c2 a -> c1 a < c3 a ->
  iou_entry a b = 1 ->
  c0 a = c0 b /\ c1 a = c1 b /\ c2 a = c2 b /\ c3 a = c3 b.
Proof.
  intros Hva Hvb Hx Hy. rewrite iou_entry_formula.
  destruct Hva as [Hax Hay], Hvb as [Hbx Hby].
  destruct (overlap_extent_bounds (c0 a) (c2 a) (c0 b) (c2 b) Hax Hbx)
    as [X0 [X1 X2]].
  destruct (overlap_extent_bounds (c1 a) (c3 a) (c1 b) (c3 b) Hay Hby)
    as [Y0 [Y1 Y2]].
  set (dx := Rmax 0 (Rmin (c2 a) (c2 b) - Rmax (c0 a) (c0 b))) in *.
  set (dy := Rmax 0 (Rmin (c3 a) (c3 b) - Rmax (c1 a) (c1 b))) in *.
  set (wa := c2 a - c0 a) in *. set (ha := c3 a - c1 a) in *.
  set (wb := c2 b - c0 b) in *. set (hb := c3 b - c1 b) in *.
  assert (Hwa : 0 < wa) by (unfold wa; lra).
  assert (Hha : 0 < ha) by (unfold ha; lra).
  assert (Hpa : 0 < wa * ha) by (apply Rmult_lt_0_compat; assumption).
  assert (Ia : dx * dy <= wa * ha) by (apply Rmult_le_compat; assumption).
  assert (Hwb : 0 <= wb) by (unfold wb; lra).
  assert (Hhb : 0 <= hb) by (unfold hb; lra).
  assert (Ib : dx * dy <= wb * hb) by (apply Rmult_le_compat; assumption).
  intros H1.
  assert (Hu : 0 < wa * ha + wb * hb - dx * dy) by lra.
  assert (E : dx * dy = wa * ha + wb * hb - dx * dy).
  { apply (Rmult_eq_reg_r (/ (wa * ha + wb * hb - dx * dy))).
    - rewrite Rinv_r by lra. exact H1.
    - apply Rinv_neq_0_compat. lra. }
  assert (Ea : dx * dy = wa * ha) by lra.
  assert (Eb : dx * dy = wb * hb) by lra.
  destruct (product_full dx dy wa ha) as [Dxa Dya]; try lra.
  assert (Hwb' : 0 < wb) by lra.
  assert (Hhb' : 0 < hb) by lra.
  destruct (product_full dx dy wb hb) as [Dxb Dyb]; try lra.
  destruct (overlap_extent_full (c0 a) (c2 a) (c0 b) (c2 b) Hx Dxa Dxb) as [? ?].
  destruct (overlap_extent_full (c1 a) (c3 a) (c1 b) (c3 b) Hy Dya Dyb) as [? ?].
  auto.
Qed.

Lemma iou_entry_same (b : bbox) :
  c0 b < c2 b -> c1 b < c3 b -> iou_entry b b = 1.
Proof.
  intros Hx Hy. rewrite iou_entry_formula.
  rewrite (Rmax_left (c0 b)), (Rmax_left (c1 b)),
          (Rmin_left (c2 b)), (Rmin_left (c3 b)) by lra.
  rewrite !Rmax_right by lra.
  assert (0 < (c2 b - c0 b) * (c3 b - c1 b)) by (apply Rmult_lt_0_compat; lra).
  field. lra.
Qed.

Lemma xyxy_of_valid (b : bbox) : 0 <= c2 b -> 0 <= c3 b -> valid_xyxy (xyxy_of b).
Proof. unfold valid_xyxy, xyxy_of; simpl; lra. Qed.

Lemma ious_row_nth_error (a : bbox) (gt : list bbox) (k : nat) :
  nth_error (ious_row a gt) k =
  option_map (fun g => iou_entry (xyxy_of a) (xyxy_of g)) (nth_error gt k).
Proof.
  unfold ious_row.
  change (convert_bbox_center_xywh_tensor_to_xyxy gt) with (map xyxy_of gt).
  rewrite map_map, nth_error_map. reflexivity.
Qed.

(** X13. An anchor of positive width and height that coincides with a
    ground-truth box (all of them of non-negative width and height) is
    matched to the first such box with overlap 1: its delta is
    (0, 0, 0, 0) and its label is that box's label plus one, never
    background and never ignored. *)
Theorem encode_exact_match :
  forall (anchors gt : list bbox) (labels : list Z) (i : nat) (a : bbox),
    nth_error anchors i = Some a ->
    0 < c2 a -> 0 < c3 a ->
    Forall (fun g => 0 <= c2 g /\ 0 <= c3 g) gt ->
    In a gt ->
    length labels = length gt ->
    exists deltas target_labels j gl,
      encode anchors gt labels = Some (deltas, target_labels) /\
      nth_error gt j = Some a /\
      (forall k, (k < j)%nat -> nth_error gt k <> Some a) /\
      nth_error labels j = Some gl /\
      nth_error deltas i = Some (mkbox 0 0 0 0) /\
      nth_error target_labels i = Some (gl + 1)%Z.
Proof.
  intros anchors gt labels i a Ha Hw Hh Hgt Hin Hlen.
  assert (Hne : gt <> []) by (intros ->; contradiction).
  destruct (encode_spec anchors gt labels Hne Hlen)
    as [deltas [tl [He [_ [_ Hnth]]]]].
  destruct (Hnth i a Ha) as [v [j [g [gl [Hfa [Hg [Hgl [Hd Ht]]]]]]]].
  assert (HA : c0 (xyxy_of a) < c2 (xyxy_of a) /\ c1 (xyxy_of a) < c3 (xyxy_of a))
    by (unfold xyxy_of; simpl; lra).
  assert (Hself : iou_entry (xyxy_of a) (xyxy_of a) = 1)
    by (apply iou_entry_same; apply HA).
  rewrite Forall_forall in Hgt.
  destruct Hfa as [Hj [Hall Hpre]].
  rewrite ious_row_nth_error, Hg in Hj. cbn [option_map] in Hj.
  assert (Hv : iou_entry (xyxy_of a) (xyxy_of g) = v) by congruence.
  assert (Hv1 : v <= 1).
  { rewrite <- Hv. apply iou_entry_range.
    - apply xyxy_of_valid; lra.
    - apply xyxy_of_valid; apply (Hgt g (nth_error_In _ _ Hg)).
    - apply Rmult_lt_0_compat; lra. }
  apply In_nth_error in Hin as [j0 Hj0].
  assert (Hv2 : 1 <= v).
  { apply (Hall j0). rewrite ious_row_nth_error, Hj0. simpl. f_equal. exact Hself. }
  assert (Ev : v = 1) by lra.
  rewrite Ev in Hv, Hpre, Ht. clear Hv1 Hv2.
  assert (Eg : g = a).
  { destruct (iou_entry_one_equal (xyxy_of a) (xyxy_of g)) as [E0 [E1 [E2 E3]]];
      try apply HA; try exact Hv.
    - apply xyxy_of_valid; lra.
    - apply xyxy_of_valid; apply (Hgt g (nth_error_In _ _ Hg)).
    - unfold xyxy_of in *; simpl in *. apply bbox_ext; lra. }
  subst g.
  exists deltas, tl, j, gl.
  split; [exact He|]. split; [exact Hg|]. split; [|split; [exact Hgl|split]].
  - intros k Hk Hka.
    assert (1 < 1); [|lra].
    apply (Hpre k 1 Hk). rewrite ious_row_nth_error, Hka. simpl. f_equal. exact Hself.
  - rewrite Hd. f_equal. unfold delta_of. apply bbox_ext; simpl.
    + field; lra.
    + field; lra.
    + replace (c2 a / c2 a) with 1 by (field; lra). apply ln_1.
    + replace (c3 a / c3 a) with 1 by (field; lra). apply ln_1.
  - rewrite Ht. f_equal.
    apply (proj2 (proj2 (label_of_cases 1 gl))). lra.
Qed.

Lemma encode_exact_match_witness :
  exists deltas target_labels,
    encode [mkbox 5 5 10 10] [mkbox 5 5 10 6; mkbox 5 5 10 10; mkbox 5 5 10 10]
           [3%Z; 7%Z; 9%Z] = Some (deltas, target_labels) /\
    nth_error target_labels 0 = Some 8%Z.
Proof.
  destruct (encode_exact_match [mkbox 5 5 10 10]
              [mkbox 5 5 10 6; mkbox 5 5 10 10; mkbox 5 5 10 10]
              [3%Z; 7%Z; 9%Z] 0%nat (mkbox 5 5 10 10) eq_refl)
    as [deltas [tl [j [gl [He [Hj [Hfirst [Hgl [_ Ht]]]]]]]]];
    try (simpl; lra); try reflexivity.
  - repeat constructor; simpl; lra.
  - right; left; reflexivity.
  - exists deltas, tl. split; [exact He|]. rewrite Ht.
    destruct j as [|[|[|j]]].
    + simpl in Hj. injection Hj as Hj. lra.
    + simpl in Hgl. injection Hgl as <-. reflexivity.
    + exfalso. apply (Hfirst 1%nat); [lia | reflexivity].
    + destruct j; discriminate.
Defined.

(** * Further properties of the padding *)

Lemma pad_target_not_larger (input_img : image) (target : Z * Z) (bboxes : list bbox)
    (fill_label : Z) :
  (fst target <= fst (size input_img))%Z ->
  (snd target <= snd (size input_img))%Z ->
  pad_to_size_with_bounding_boxes input_img target bboxes fill_label =
  (input_img, bboxes).
Proof.
  intros Hx Hy. unfold pad_to_size_with_bounding_boxes. cbn [fst snd].
  rewrite !expand_difference_max.
  rewrite !Z.max_l by lia.
  change (0 / 2)%Z with 0%Z. change (0 - 0)%Z with 0%Z.
  cbn [Z.eqb negb orb].
  f_equal. apply map_id_ext. intros b. apply bbox_ext; cbn [c0 c1 c2 c3]; lra.
Qed.

Lemma pad_output_size (input_img : image) (target : Z * Z) (bboxes : list bbox)
    (fill_label : Z) :
  size (fst (pad_to_size_with_bounding_boxes input_img target bboxes fill_label)) =
  (Z.max (fst (size input_img)) (fst target),
   Z.max (snd (size input_img)) (snd target)).
Proof.
  rewrite padded_image.
  set (pad_x := Z.max 0 (fst target - fst (size input_img))).
  set (pad_y := Z.max 0 (snd target - snd (size input_img))).
  assert (Hpx : (0 <= pad_x)%Z) by apply Z.le_max_l.
  assert (Hpy : (0 <= pad_y)%Z) by apply Z.le_max_l.
  destruct (negb (pad_x / 2 =? 0)%Z || negb (pad_y / 2 =? 0)%Z ||
            negb (pad_x - pad_x / 2 =? 0)%Z || negb (pad_y - pad_y / 2 =? 0)%Z) eqn:Hany.
  - unfold ImageOps_expand, paste, Image_new; cbn [size fst snd]. f_equal; lia.
  - destruct (no_border_no_padding pad_x pad_y Hpx Hpy Hany) as [Hx Hy].
    destruct input_img as [[w h] px]; cbn [size fst snd] in *. f_equal; lia.
Qed.

(** X14. When the target is not larger than the image on either axis
    nothing is padded and nothing is cropped: the image and the boxes come
    back as they were, whatever the fill value. *)
Theorem pad_to_size_target_not_larger :
  forall (input_img : image) (target : Z * Z) (bboxes : list bbox) (fill_label : Z),
    (fst target <= fst (size input_img))%Z ->
    (snd target <= snd (size input_img))%Z ->
    pad_to_size_with_bounding_boxes input_img target bboxes fill_label =
    (input_img, bboxes).
Proof. exact pad_target_not_larger. Qed.

Lemma pad_to_size_target_not_larger_witness :
  pad_to_size_with_bounding_boxes (mkimage (640, 480)%Z (fun x y => (x + y)%Z))
    (600, 480)%Z [mkbox 5 5 10 6] 0%Z =
  (mkimage (640, 480)%Z (fun x y => (x + y)%Z), [mkbox 5 5 10 6]).
Proof.
  apply (pad_to_size_target_not_larger (mkimage (640, 480)%Z (fun x y => (x + y)%Z))
           (600, 480)%Z [mkbox 5 5 10 6] 0%Z); simpl; lia.
Defined.

(** X15. Padding is idempotent: padding the padded image again to the
    same target leaves the image as it is and moves no box. *)
Theorem pad_to_size_idempotent :
  forall (input_img : image) (target : Z * Z) (bboxes bboxes' : list bbox)
         (fill_label fill_label' : Z),
    let padded :=
      fst (pad_to_size_with_bounding_boxes input_img target bboxes fill_label) in
    pad_to_size_with_bounding_boxes padded target bboxes' fill_label' =
    (padded, bboxes').
Proof.
  intros input_img target bboxes bboxes' fill_label fill_label' padded.
  apply pad_target_not_larger; unfold padded; rewrite pad_output_size;
    cbn [fst snd]; lia.
Qed.

(** * Further properties over the store *)

Ltac run_assign src rows H :=
  unfold Store.bind at 1;
  rewrite (read_float_at _ src rows) by (apply nth_error_old_cell; exact H);
  unfold Store.bind at 1;
  rewrite assign_column_last_cell, assign_column_map.

(** X16. Each of the four conversions, run over the store on a float
    tensor, allocates one new object that holds the converted rows and
    returns a reference to it; the argument and all other objects stay as
    they were. *)
Theorem conversions_allocate :
  forall (s : Store.store) (src : Store.ref) (rows : list bbox),
    nth_error s src = Some (Store.FloatTensor rows) ->
    Store.convert_bbox_topleft_xywh_tensor_to_center_xywh src s =
      Some (length s,
            s ++ [Store.FloatTensor (convert_bbox_topleft_xywh_tensor_to_center_xywh rows)]) /\
    Store.convert_bbox_center_xywh_tensor_to_xyxy src s =
      Some (length s,
            s ++ [Store.FloatTensor (convert_bbox_center_xywh_tensor_to_xyxy rows)]) /\
    Store.convert_bbox_topleft_xywh_tensor_to_xyxy src s =
      Some (length s,
            s ++ [Store.FloatTensor (convert_bbox_topleft_xywh_tensor_to_xyxy rows)]) /\
    Store.convert_bbox_center_xywh_tensor_to_topleft_xywh src s =
      Some (length s,
            s ++ [Store.FloatTensor (convert_bbox_center_xywh_tensor_to_topleft_xywh rows)]).
Proof.
  intros s src rows H.
  split; [|split; [apply convert_run; exact H|split]].
  - unfold Store.convert_bbox_topleft_xywh_tensor_to_center_xywh.
    unfold Store.bind at 1. unfold Store.clone, Store.bind at 1.
    rewrite (read_at _ _ _ H). unfold Store.new.
    rewrite <- (map_id rows) at 1.
    do 2 run_assign src rows H.
    unfold Store.ret. do 3 f_equal.
  - unfold Store.convert_bbox_topleft_xywh_tensor_to_xyxy.
    unfold Store.bind at 1. unfold Store.clone, Store.bind at 1.
    rewrite (read_at _ _ _ H). unfold Store.new.
    rewrite <- (map_id rows) at 1.
    do 2 run_assign src rows H.
    unfold Store.ret. do 3 f_equal.
  - unfold Store.convert_bbox_center_xywh_tensor_to_topleft_xywh.
    unfold Store.bind at 1. unfold Store.clone, Store.bind at 1.
    rewrite (read_at _ _ _ H). unfold Store.new.
    rewrite <- (map_id rows) at 1.
    do 2 run_assign src rows H.
    unfold Store.ret. do 3 f_equal.
Qed.

Lemma conversions_allocate_witness :
  Store.convert_bbox_center_xywh_tensor_to_topleft_xywh 0%nat
    [Store.FloatTensor [mkbox 5 5 10 6]] =
  Some (1%nat,
        [Store.FloatTensor [mkbox 5 5 10 6];
         Store.FloatTensor
           (convert_bbox_center_xywh_tensor_to_topleft_xywh [mkbox 5 5 10 6])]).
Proof.
  apply (conversions_allocate [Store.FloatTensor [mkbox 5 5 10 6]] 0%nat
           [mkbox 5 5 10 6] eq_refl).
Defined.

(** * The anchor set as a whole *)

Lemma mapM_In {A B : Type} (f : A -> option B) (l : list A) (r : list B) (y : B) :
  mapM f l = Some r -> In y r -> exists x, In x l /\ f x = Some y.
Proof.
  revert r; induction l as [|x l IH]; intros r; simpl.
  - intros [= <-] [].
  - destruct (f x) as [b|] eqn:Hb; simpl; [|discriminate].
    destruct (mapM f l) as [bs|]; simpl; [|discriminate].
    intros [= <-] [<- | Hin]; [eauto|].
    destruct (IH bs eq_refl Hin) as [z [Hz Hfz]]. eauto.
Qed.

(** X17. Whenever the anchor set is produced, every anchor in it has a
    positive width, the area [w * h] of one of the configured areas and
    the ratio [w / h] of one of the configured aspect ratios, and its
    center is one of the grid centers. *)
Theorem anchor_set_areas_and_ratios :
  forall (areas ratios : list R) (stride : Z) (input_size : Z * Z)
         (anchors : list bbox) (b : bbox),
    precompute_anchor_boxes areas ratios stride input_size = Some anchors ->
    In b anchors ->
    0 < c2 b /\
    (exists area ratio,
        In area areas /\ In ratio ratios /\
        c2 b * c3 b = area /\ c2 b / c3 b = ratio) /\
    In (c0 b, c1 b) (anchor_coordinates_input stride input_size).
Proof.
  intros areas ratios stride input_size anchors b Hp Hb.
  destruct (anchor_boxes_sizes_list areas ratios) as [sizes|] eqn:Hs.
  - rewrite (precompute_anchor_boxes_flat _ _ _ _ _ Hs) in Hp.
    injection Hp as <-.
    apply in_flat_map in Hb as [ctr [Hctr Hb]].
    apply in_map_iff in Hb as [[w h] [<- Hsz]].
    unfold anchor_of; cbn [c0 c1 c2 c3 fst snd].
    unfold anchor_boxes_sizes_list in Hs.
    destruct (mapM _ areas) as [per_area|] eqn:Hm; simpl in Hs; [|discriminate].
    injection Hs as <-.
    apply in_concat in Hsz as [row [Hrow Hsz]].
    destruct (mapM_In _ _ _ _ Hm Hrow) as [area [Harea Hr]].
    destruct (mapM_In _ _ _ _ Hr Hsz) as [ratio [Hratio Ha]].
    destruct (anchor_size_product _ _ _ _ Ha) as [Hw [_ [_ [Hwh Hwr]]]].
    split; [exact Hw|]. split; [|destruct ctr; exact Hctr].
    exists area, ratio. auto.
  - unfold precompute_anchor_boxes, get_anchor_boxes_sizes in Hp.
    rewrite Hs in Hp. discriminate.
Qed.

Lemma anchor_set_areas_and_ratios_witness :
  exists anchors,
    precompute_anchor_boxes [4] [1] 16%Z (16, 16)%Z = Some anchors /\
    Forall (fun b => 0 < c2 b) anchors.
Proof.
  assert (Habove : forall area ratio, In area [4] -> In ratio [1] ->
                     binary64_half_least < ratio * area).
  { pose proof binary64_half_least_le_1 as Hb.
    intros area ratio [<- | []] [<- | []]. lra. }
  pose proof (anchor_boxes_sizes_list_above _ _ Habove) as Hs.
  pose proof (precompute_anchor_boxes_flat [4] [1] 16%Z (16, 16)%Z _ Hs) as Hp.
  eexists. split; [exact Hp|].
  apply Forall_forall. intros b Hb.
  apply (anchor_set_areas_and_ratios [4] [1] 16%Z (16, 16)%Z _ b Hp Hb).
Defined.
